(** * Command-line tutor: the virtual file system and the [cd] controller

    A shallow embedding of [src/index.tsx]: the seeded directory tree, the
    tree walk [getDirectory], the client-side [handleCd], and the command
    dispatcher [runCommand], together with the properties the specification
    states about them.

    JavaScript strings are sequences of UTF-16 code units; they are modelled
    as lists of code units ([N]).  DOM state is reduced to the fields the
    controller reads or writes (prompt text, terminal lines, the input box);
    the Response Engine is an environment whose answers are parameters of
    each call. *)

From Stdlib Require Import String Ascii.
From Stdlib Require Import List NArith Bool Arith Lia.
Import ListNotations.

(** ** JavaScript string primitives used by the program *)

Definition char := N.
Definition jsstring := list char.

Module Js.

(** A source literal (ASCII) as a sequence of code units. *)
Definition lit (s : string) : jsstring :=
  map N_of_ascii (list_ascii_of_string s).

(** [a === b] on strings. *)
Fixpoint eqb (a b : jsstring) : bool :=
  match a, b with
  | [], [] => true
  | x :: a', y :: b' => N.eqb x y && eqb a' b'
  | _, _ => false
  end.

(** [s.startsWith(prefix)]. *)
Fixpoint startsWith (s prefix : jsstring) : bool :=
  match prefix, s with
  | [], _ => true
  | p :: prefix', c :: s' => N.eqb c p && startsWith s' prefix'
  | _ :: _, [] => false
  end.

(** [s.split(sep)] for a one-character separator: never an empty array;
    the empty string splits into one empty segment. *)
Fixpoint split (sep : char) (s : jsstring) : list jsstring :=
  match s with
  | [] => [[]]
  | c :: s' =>
      if N.eqb c sep then [] :: split sep s'
      else match split sep s' with
           | seg :: segs => (c :: seg) :: segs
           | [] => [[c]]
           end
  end.

(** [parts.join(sep)]. *)
Fixpoint join (sep : jsstring) (parts : list jsstring) : jsstring :=
  match parts with
  | [] => []
  | [p] => p
  | p :: rest => p ++ sep ++ join sep rest
  end.

(** The characters matched by the regular expression class [\s], which are
    also the ones [trim] strips: WhiteSpace and LineTerminator. *)
Definition isWhiteSpace (c : char) : bool :=
  ((9 <=? c) && (c <=? 13) || (c =? 32) || (c =? 160) || (c =? 5760)
   || (8192 <=? c) && (c <=? 8202) || (c =? 8232) || (c =? 8233)
   || (c =? 8239) || (c =? 8287) || (c =? 12288) || (c =? 65279))%N.

Fixpoint dropWhile (p : char -> bool) (s : jsstring) : jsstring :=
  match s with
  | [] => []
  | c :: s' => if p c then dropWhile p s' else s
  end.

(** [s.trim()]. *)
Definition trim (s : jsstring) : jsstring :=
  rev (dropWhile isWhiteSpace (rev (dropWhile isWhiteSpace s))).

(** [s.split(/\s+/)]: [inRun] tells that the previous character was part
    of the separator being matched, so a run of white space separates
    once. *)
Fixpoint splitWhiteSpaceFrom (inRun : bool) (s : jsstring) : list jsstring :=
  match s with
  | [] => [[]]
  | c :: s' =>
      if isWhiteSpace c then
        if inRun then splitWhiteSpaceFrom true s'
        else [] :: splitWhiteSpaceFrom true s'
      else match splitWhiteSpaceFrom false s' with
           | seg :: segs => (c :: seg) :: segs
           | [] => [[c]]
           end
  end.

Definition splitWhiteSpace (s : jsstring) : list jsstring :=
  splitWhiteSpaceFrom false s.

Definition slash : char := 47%N.

End Js.

Notation "` s" := (Js.lit s) (at level 1, s at level 0, format "` s").
Arguments Js.lit : simpl never.

(** ** The seeded tree (lines 14-34) *)

(** A node object: [{type: 'dir', children: {...}}] or [{type: 'file'}].
    [children] keeps the declaration order of the keys. *)
#[warning="-register-all"]
Inductive Node : Type :=
| Dir (children : list (jsstring * Node))
| File.

(** The own properties of the object bound to [fileSystem]. *)
Definition fileSystem : list (jsstring * Node) :=
  [ (`"~", Dir
      [ (`"documents", Dir [ (`"report.docx", File) ]);
        (`"images", Dir [ (`"photo.jpg", File); (`"vacation.png", File) ]);
        (`"music", Dir []);
        (`"file1.txt", File) ]) ].

(** The values the variable [currentLevel] of [getDirectory] can hold. *)
Inductive Value : Type :=
| VFileSystem                (* the object bound to [fileSystem] *)
| VNode (n : Node)           (* a node object of the tree *)
| VBuiltin (key : jsstring)  (* a member of Object.prototype, reached
                                through the prototype chain of a plain object *)
| VUndefined
| VNull.

(** The property names every plain object inherits from Object.prototype;
    each holds a function, or the prototype object itself for [__proto__]. *)
Definition objectPrototypeKeys : list jsstring :=
  [ `"constructor"; `"hasOwnProperty"; `"isPrototypeOf";
    `"propertyIsEnumerable"; `"toLocaleString"; `"toString"; `"valueOf";
    `"__proto__"; `"__defineGetter__"; `"__defineSetter__";
    `"__lookupGetter__"; `"__lookupSetter__" ].

Fixpoint ownProperty (props : list (jsstring * Node)) (key : jsstring)
  : option Node :=
  match props with
  | [] => None
  | (k, n) :: props' => if Js.eqb key k then Some n else ownProperty props' key
  end.

(** [obj[key]] on a plain object whose own properties are [props]: an own
    property first, then the prototype chain, else [undefined]. *)
Definition getProperty (props : list (jsstring * Node)) (key : jsstring)
  : Value :=
  match ownProperty props key with
  | Some n => VNode n
  | None => if existsb (Js.eqb key) objectPrototypeKeys then VBuiltin key
            else VUndefined
  end.

(** Truthiness of a value ([if (v)], [v && ...]). *)
Definition truthy (v : Value) : bool :=
  match v with
  | VUndefined | VNull => false
  | _ => true
  end.

(** ** Exceptions and completions *)

Inductive Exception : Type :=
| TypeError                              (* a property read on undefined/null *)
| Rejection (message : option jsstring)  (* a value thrown by the Response
                                            Engine, with its [message]
                                            property if it has one *)
| NullRejection.                         (* the engine threw null/undefined *)

Inductive Completion (A : Type) : Type :=
| Normal (a : A)
| Throw (e : Exception).
Arguments Normal {A} a.
Arguments Throw {A} e.

(** [currentLevel['~']]: only the top object owns a ['~'] property; node
    objects (own properties [type], [children]) and members of
    Object.prototype have none; reading it off [undefined] throws. *)
Definition readHome (currentLevel : Value) : Completion Value :=
  match currentLevel with
  | VFileSystem => Normal (getProperty fileSystem `"~")
  | VNode _ | VBuiltin _ => Normal VUndefined
  | VUndefined | VNull => Throw TypeError
  end.

(** ** getDirectory (lines 190-202) *)

(** The loop of [getDirectory], started at [currentLevel]. *)
Fixpoint walk (currentLevel : Value) (pathParts : list jsstring)
  : Completion Value :=
  match pathParts with
  | [] => Normal currentLevel
  | part :: rest =>
      if Js.eqb part `"~" then
        match readHome currentLevel with
        | Normal v => walk v rest
        | Throw e => Throw e
        end
      else
        match currentLevel with
        | VNode (Dir children) =>
            let child := getProperty children part in
            if truthy child then walk child rest else Normal VNull
        | _ => Normal VNull
        end
  end.

Definition getDirectory (pathParts : list jsstring) : Completion Value :=
  walk VFileSystem pathParts.

(** [targetDir && targetDir.type === 'dir']. *)
Definition isDirectory (v : Value) : bool :=
  match v with
  | VNode (Dir _) => true
  | _ => false
  end.

(** ** Session state *)

Inductive LogType : Type := logCommand | logResponse | logError.

(** A line appended to the terminal output: its class [log-<type>], the
    prompt shown in front of a command line, and its text. *)
Record Line : Type := mkLine {
  lineType : LogType;
  linePrompt : option jsstring;
  lineText : jsstring
}.

(** A chat session created by [ai.chats.create]: which creation it came
    from, and the path its system instruction was built from (the tree
    serialised into the instruction is constant). *)
Record Chat : Type := mkChat {
  chatId : nat;
  chatContext : jsstring
}.

Record State : Type := mkState {
  currentPath : list jsstring;    (* [currentPath] *)
  chat : Chat;                    (* [chat] *)
  sessionLog : list jsstring;     (* contexts of the sessions the engine has
                                     created for [handleCd], oldest first *)
  promptText : jsstring;          (* [promptElement.textContent] *)
  terminalOutput : list Line;     (* children of [terminalOutput] *)
  inputValue : jsstring;          (* [terminalInput.value] *)
  inputDisabled : bool            (* [terminalInput.disabled] *)
}.

(** How the Response Engine settles a [chat.sendMessage] call: a response
    whose [text] may be undefined, or a thrown or rejected value. *)
Inductive SendOutcome : Type :=
| Resolved (text : option jsstring)
| Failed (e : Exception).

(** The behaviour of the engine during one command. *)
Record Engine : Type := mkEngine {
  createThrows : bool;        (* does [ai.chats.create] throw? *)
  sendOutcome : SendOutcome   (* how [chat.sendMessage] settles *)
}.

(** ** A state and exception monad for the controller *)

Definition M (A : Type) : Type := State -> Completion A * State.

Definition ret {A} (a : A) : M A := fun s => (Normal a, s).

Definition bind {A B} (m : M A) (k : A -> M B) : M B :=
  fun s =>
    match m s with
    | (Normal a, s') => k a s'
    | (Throw e, s') => (Throw e, s')
    end.

Definition throw {A} (e : Exception) : M A := fun s => (Throw e, s).

Definition gets {A} (f : State -> A) : M A := fun s => (Normal (f s), s).

Definition modify (f : State -> State) : M unit := fun s => (Normal tt, f s).

(** A pure computation that may throw. *)
Definition liftC {A} (c : Completion A) : M A := fun s => (c, s).

(** [try { body } catch (e) { handler e }]. *)
Definition tryCatch {A} (body : M A) (handler : Exception -> M A) : M A :=
  fun s =>
    match body s with
    | (Normal a, s') => (Normal a, s')
    | (Throw e, s') => handler e s'
    end.

(** [try { body } finally { final }]: [final] runs on every completion of
    [body]; a throw of [final] replaces the completion of [body]. *)
Definition tryFinally {A} (body : M A) (final : M unit) : M A :=
  fun s =>
    match body s with
    | (c, s') =>
        match final s' with
        | (Normal _, s'') => (c, s'')
        | (Throw e, s'') => (Throw e, s'')
        end
    end.

Declare Scope controller_scope.
Delimit Scope controller_scope with ctl.
Notation "x <- c1 ;; c2" := (bind c1 (fun x => c2))
  (at level 61, c1 at next level, right associativity) : controller_scope.
Notation "c1 ;; c2" := (bind c1 (fun _ => c2))
  (at level 61, right associativity) : controller_scope.
Open Scope controller_scope.

Definition setCurrentPath (p : list jsstring) : M unit :=
  modify (fun s => mkState p (chat s) (sessionLog s) (promptText s)
                     (terminalOutput s) (inputValue s) (inputDisabled s)).

Definition setChat (c : Chat) : M unit :=
  modify (fun s => mkState (currentPath s) c (sessionLog s) (promptText s)
                     (terminalOutput s) (inputValue s) (inputDisabled s)).

Definition logSession (context : jsstring) : M unit :=
  modify (fun s => mkState (currentPath s) (chat s)
                     (sessionLog s ++ [context]) (promptText s)
                     (terminalOutput s) (inputValue s) (inputDisabled s)).

Definition setPromptText (t : jsstring) : M unit :=
  modify (fun s => mkState (currentPath s) (chat s) (sessionLog s) t
                     (terminalOutput s) (inputValue s) (inputDisabled s)).

Definition appendLine (l : Line) : M unit :=
  modify (fun s => mkState (currentPath s) (chat s) (sessionLog s)
                     (promptText s) (terminalOutput s ++ [l]) (inputValue s)
                     (inputDisabled s)).

Definition setInputValue (v : jsstring) : M unit :=
  modify (fun s => mkState (currentPath s) (chat s) (sessionLog s)
                     (promptText s) (terminalOutput s) v (inputDisabled s)).

Definition setInputDisabled (b : bool) : M unit :=
  modify (fun s => mkState (currentPath s) (chat s) (sessionLog s)
                     (promptText s) (terminalOutput s) (inputValue s) b).

(** ** appendToTerminal (lines 161-183) *)

Definition appendToTerminal (text : jsstring) (type : LogType) : M unit :=
  match type with
  | logCommand =>
      p <- gets promptText ;;
      appendLine (mkLine logCommand (Some p) text)
  | _ => appendLine (mkLine type None text)
  end.

(** [renderFileSystem] and [scrollToBottom] only repaint the tree view and
    move the scroll position; they read the state and leave it as it is. *)
Definition renderFileSystem : M unit := ret tt.
Definition scrollToBottom : M unit := ret tt.

(** ** handleCd (lines 208-247) *)

(** One turn of the loop over [newPathParts] (lines 215-219). *)
Definition accumulate (resolvedPath : list jsstring) (part : jsstring)
  : list jsstring :=
  if Js.eqb part `".." then
    if 1 <? length resolvedPath then removelast resolvedPath else resolvedPath
  else if negb (Js.eqb part `".") && negb (Js.eqb part `"") then
    resolvedPath ++ [part]
  else resolvedPath.

(** The value of [resolvedPath] after the loop (lines 212-220). *)
Definition resolvePath (currentPath : list jsstring) (arg : jsstring)
  : list jsstring :=
  let newPathParts :=
    if Js.startsWith arg `"~" then Js.split Js.slash arg
    else currentPath ++ Js.split Js.slash arg in
  fold_left accumulate newPathParts [].

(** The expression bound to [displayPath] (line 232). *)
Definition displayPath (currentPath : list jsstring) : jsstring :=
  if length currentPath =? 1 then `"~"
  else `"~/" ++ Js.join `"/" (skipn 1 currentPath).

(** [ai.chats.create({... systemInstruction: getSystemInstruction(path)})]:
    the engine creates and returns a new session object, or the client
    library throws. *)
Definition chatsCreate (ai : Engine) (path : jsstring) : M Chat :=
  if createThrows ai then throw (Rejection None)
  else
    log <- gets sessionLog ;;
    logSession path ;;
    ret (mkChat (S (length log)) path).

Definition noSuchDirectory (arg : jsstring) : jsstring :=
  `"bash: cd: " ++ arg ++ `": No such file or directory".

Definition contextWarning : jsstring :=
  `"Error: Failed to update context for new directory. "
  ++ `"Terminal may not respond correctly.".

(** Lines 209-229: [true] when the function goes on to update the UI,
    [false] when it has reported the error and returned. *)
Definition changeDirectory (arg : jsstring) : M bool :=
  if Js.eqb arg `"" || Js.eqb arg `"~" then
    setCurrentPath [`"~"] ;;
    ret true
  else
    cp <- gets currentPath ;;
    let resolvedPath := resolvePath cp arg in
    targetDir <- liftC (getDirectory resolvedPath) ;;
    if isDirectory targetDir then
      setCurrentPath resolvedPath ;;
      ret true
    else
      appendToTerminal (noSuchDirectory arg) logError ;;
      ret false.

(** Lines 231-246. *)
Definition updateUI (ai : Engine) : M unit :=
  cp <- gets currentPath ;;
  setPromptText (`"user@gemini:" ++ displayPath cp ++ `"$") ;;
  renderFileSystem ;;
  tryCatch
    (cp' <- gets currentPath ;;
     c <- chatsCreate ai (Js.join `"/" cp') ;;
     setChat c)
    (fun _ => appendToTerminal contextWarning logError).

Definition handleCd (ai : Engine) (arg : jsstring) : M unit :=
  committed <- changeDirectory arg ;;
  if committed then updateUI ai else ret tt.

(** ** runCommand (lines 253-284) *)

(** What the synchronous part of [runCommand] leaves behind: nothing, or a
    request in flight to the Response Engine. *)
Inductive Dispatch : Type :=
| Finished
| Awaiting (message : jsstring).

(** [runCommand] up to the [await] (lines 254-271). *)
Definition issueCommand (ai : Engine) (command : jsstring) : M Dispatch :=
  let trimmedCommand := Js.trim command in
  if Js.eqb trimmedCommand `"" then ret Finished
  else
    appendToTerminal trimmedCommand logCommand ;;
    setInputValue `"" ;;
    let tokens := Js.splitWhiteSpace trimmedCommand in
    let cmd := hd_error tokens in
    let args := tl tokens in
    match cmd with
    | Some c =>
        if Js.eqb c `"cd" then
          handleCd ai (Js.join `" " args) ;;
          scrollToBottom ;;
          ret Finished
        else
          setInputDisabled true ;;
          ret (Awaiting trimmedCommand)
    | None =>
        setInputDisabled true ;;
        ret (Awaiting trimmedCommand)
    end.

(** [e.message] as interpolated into the error line.  The text of a
    [TypeError] of the runtime depends on the engine and on what was read;
    the constant below stands for it, and no property depends on it. *)
Definition errorMessage (e : Exception) : Completion jsstring :=
  match e with
  | TypeError => Normal `"Cannot read properties of undefined"
  | Rejection (Some m) => Normal m
  | Rejection None => Normal `"undefined"
  | NullRejection => Throw TypeError
  end.

(** [runCommand] from the [await] on (lines 270-283): the body of the [try]
    once the call has settled, the [catch] and the [finally]. *)
Definition settleCommand (outcome : SendOutcome) : M unit :=
  tryFinally
    (tryCatch
       (match outcome with
        | Resolved (Some text) =>
            if Js.eqb text `"" then ret tt
            else appendToTerminal text logResponse
        | Resolved None => ret tt
        | Failed e => throw e
        end)
       (fun e =>
          m <- liftC (errorMessage e) ;;
          appendToTerminal (`"Error: " ++ m) logError))
    (setInputDisabled false ;;
     scrollToBottom).

Definition runCommand (ai : Engine) (command : jsstring) : M unit :=
  d <- issueCommand ai command ;;
  match d with
  | Finished => ret tt
  | Awaiting _ => settleCommand (sendOutcome ai)
  end.

(** ** Sessions *)

(** One command typed at the prompt, with the engine's behaviour while it
    runs. *)
Record Interaction : Type := mkInteraction {
  typed : jsstring;
  engine : Engine
}.

(** The state once the controller is ready (after [main]): the path is
    [['~']] (line 34), [initializeChat] has created the first session, the
    input is enabled; the prompt text comes from the page. *)
Definition initialState (prompt : jsstring) : State :=
  mkState [`"~"] (mkChat 0 `"~") [] prompt [] `"" false.

(** An exception that escapes [runCommand] rejects its promise; the state
    stays as the command left it and the next command runs from there. *)
Definition step (s : State) (i : Interaction) : State :=
  snd (runCommand (engine i) (typed i) s).

Definition runSession (s : State) (cmds : list Interaction) : State :=
  fold_left step cmds s.

(** The invariant of [currentPath]: it starts at the home sentinel and
    every non-empty prefix walks to a directory. *)
Definition reachesDirectory (p : list jsstring) : Prop :=
  exists children, getDirectory p = Normal (VNode (Dir children)).

Definition pathInvariant (p : list jsstring) : Prop :=
  (exists rest, p = `"~" :: rest) /\
  forall n, 0 < n <= length p -> reachesDirectory (firstn n p).

(** The engine of a session in which nothing fails. *)
Definition healthy : Engine := mkEngine false (Resolved None).

(** The directories of the seeded tree, as paths from the top object. *)
Definition directories : list (list jsstring) :=
  [ [`"~"]; [`"~"; `"documents"]; [`"~"; `"images"]; [`"~"; `"music"] ].

(** The state a failed [cd] leaves: one more line, the error. *)
Definition reported (arg : jsstring) (s : State) : State :=
  mkState (currentPath s) (chat s) (sessionLog s) (promptText s)
    (terminalOutput s ++ [mkLine logError None (noSuchDirectory arg)])
    (inputValue s) (inputDisabled s).

(** The state once [runCommand] has echoed the command line and cleared
    the input box (lines 257-258). *)
Definition echoed (line : jsstring) (s : State) : State :=
  mkState (currentPath s) (chat s) (sessionLog s) (promptText s)
    (terminalOutput s ++ [mkLine logCommand (Some (promptText s)) line])
    `"" (inputDisabled s).

(** The only values [handleCd] assigns to [currentPath] from a state whose
    path is [cp]: [['~']], or a resolved path that [getDirectory] found to
    be a directory. *)
Definition assigned (cp p : list jsstring) : Prop :=
  p = [`"~"] \/
  exists arg, p = resolvePath cp arg /\ reachesDirectory p.

(** Scenario 5 of the specification: [cd music], [cd ..], [cd music] typed
    at the prompt while the engine creates every session it is asked for. *)
Definition musicUpMusic (o1 o2 o3 : SendOutcome) : list Interaction :=
  [ mkInteraction `"cd music" (mkEngine false o1);
    mkInteraction `"cd .." (mkEngine false o2);
    mkInteraction `"cd music" (mkEngine false o3) ].

(** A successful navigation from [cp] with argument [arg] to [p]: the
    reset to the home directory, or a resolved path that is a directory. *)
Definition navigatesTo (cp : list jsstring) (arg : jsstring)
    (p : list jsstring) : Prop :=
  (Js.eqb arg `"" || Js.eqb arg `"~" = true /\ p = [`"~"]) \/
  (Js.eqb arg `"" || Js.eqb arg `"~" = false /\
   p = resolvePath cp arg /\ reachesDirectory p).

(** The state [handleCd] leaves after committing [p]: the prompt shows the
    new path; the chat session is [c] and the log and terminal are as
    given. *)
Definition committed (p : list jsstring) (c : Chat) (log : list jsstring)
    (out : list Line) (s : State) : State :=
  mkState p c log (`"user@gemini:" ++ displayPath p ++ `"$") out
    (inputValue s) (inputDisabled s).

(** The shape of a [cd] command line: [cd], then each further token after
    a run of white space, the whole between optional white space. *)
Definition blank (w : jsstring) : Prop :=
  forallb Js.isWhiteSpace w = true.

Definition isGap (w : jsstring) : Prop :=
  w <> [] /\ blank w.

Definition solid (t : jsstring) : Prop :=
  forallb (fun c => negb (Js.isWhiteSpace c)) t = true.

Definition isToken (t : jsstring) : Prop :=
  t <> [] /\ solid t.

Definition gapped (args : list (jsstring * jsstring)) : jsstring :=
  concat (map (fun a => fst a ++ snd a) args).

Definition cdLine (lead : jsstring) (args : list (jsstring * jsstring))
    (trail : jsstring) : jsstring :=
  lead ++ (`"cd" ++ gapped args) ++ trail.

(** ** Closed forms used to state what the controller does *)

(** A segment that accumulation keeps: not [".."], ["."] or empty. *)
Definition properSegment (seg : jsstring) : Prop :=
  seg <> `".." /\ seg <> `"." /\ seg <> `"".

(** Two consecutive home sentinels in a path. *)
Fixpoint adjacentHomes (p : list jsstring) : bool :=
  match p with
  | a :: rest =>
      match rest with
      | b :: _ => (Js.eqb a `"~" && Js.eqb b `"~") || adjacentHomes rest
      | [] => false
      end
  | [] => false
  end.

(** Does [handleCd] commit a path (lines 209, 223)? *)
Definition cdSucceeds (cp : list jsstring) (arg : jsstring) : bool :=
  if Js.eqb arg `"" || Js.eqb arg `"~" then true
  else match getDirectory (resolvePath cp arg) with
       | Normal v => isDirectory v
       | Throw _ => false
       end.

(** The path it commits then (lines 210, 224). *)
Definition cdTarget (cp : list jsstring) (arg : jsstring) : list jsstring :=
  if Js.eqb arg `"" || Js.eqb arg `"~" then [`"~"] else resolvePath cp arg.

(** The prompt text of line 233. *)
Definition promptFor (p : list jsstring) : jsstring :=
  `"user@gemini:" ++ displayPath p ++ `"$".

(** The state with the terminal input disabled (line 268) or enabled
    (line 280), and with one more terminal line. *)
Definition withInputDisabled (b : bool) (s : State) : State :=
  mkState (currentPath s) (chat s) (sessionLog s) (promptText s)
    (terminalOutput s) (inputValue s) b.

Definition withLine (l : Line) (s : State) : State :=
  mkState (currentPath s) (chat s) (sessionLog s) (promptText s)
    (terminalOutput s ++ [l]) (inputValue s) (inputDisabled s).

(** ** The tree view built by renderFileSystem (lines 92-152) *)

(** [s.replace(pattern, replacement)] with a string pattern: the first
    occurrence only; the replacement of the program has no [$] sequence and
    is inserted as it is. *)
Fixpoint replaceFirst (pattern replacement s : jsstring) : jsstring :=
  match s with
  | [] => if Js.startsWith [] pattern then replacement else []
  | c :: s' =>
      if Js.startsWith s pattern then replacement ++ skipn (length pattern) s
      else c :: replaceFirst pattern replacement s'
  end.

Inductive ItemClass : Type := directoryClass | fileClass.

(** An [li] of the tree view: the text of its name span, its class
    [directory] or [file], whether it carries the class [active], and the
    items of its nested [ul] (none for a file). *)
#[warning="-register-all"]
Inductive TreeItem : Type :=
| Item (name : jsstring) (class : ItemClass) (active : bool)
    (children : list TreeItem).

(** [createTree(dir, currentLevelPath)] (lines 95-128); [fullPathString]
    is [currentPath.slice(1).join('/')].  The [for ... in] loop visits the
    own keys of [dir.children] in declaration order. *)
Fixpoint createTree (fullPathString : jsstring) (dir : Node)
    (currentLevelPath : jsstring) {struct dir} : list TreeItem :=
  match dir with
  | File => []
  | Dir children =>
      (fix items (entries : list (jsstring * Node)) : list TreeItem :=
         match entries with
         | [] => []
         | (name, item) :: entries' =>
             let itemPath :=
               replaceFirst `"~/" `"" (currentLevelPath ++ `"/" ++ name) in
             Item name
               (match item with Dir _ => directoryClass | File => fileClass end)
               (Js.eqb itemPath fullPathString)
               (match item with
                | Dir _ =>
                    createTree fullPathString item
                      (currentLevelPath ++ `"/" ++ name)
                | File => []
                end)
             :: items entries'
         end) children
  end.

(** The root [li] that [renderFileSystem] puts in the tree view
    (lines 130-151). *)
Definition treeView (currentPath : list jsstring) : TreeItem :=
  Item `"~" directoryClass (Js.eqb (Js.join `"/" currentPath) `"~")
    (match ownProperty fileSystem `"~" with
     | Some home =>
         createTree (Js.join `"/" (skipn 1 currentPath)) home `"~"
     | None => []
     end).

(** The items that carry the class [active], each as the list of names
    from the root item down to it. *)
Fixpoint activePaths (above : list jsstring) (t : TreeItem)
  : list (list jsstring) :=
  match t with
  | Item name _ active children =>
      (if active then [above ++ [name]] else [])
      ++ flat_map (activePaths (above ++ [name])) children
  end.

(** ** Start-up: initializeChat (lines 64-85) and main (lines 360-419) *)

(** What [main] finds: the API key of the environment, whether the page
    has all the elements it looks up, whether constructing the client or
    creating the first session throws, and the prompt text and the content
    of the input box as the page has them. *)
Record Boot : Type := mkBoot {
  apiKey : option jsstring;
  elementsFound : bool;
  clientThrows : bool;
  pagePrompt : jsstring;
  pageInput : jsstring
}.

(** [!API_KEY]: undefined or the empty string. *)
Definition keyMissing (key : option jsstring) : bool :=
  match key with
  | None => true
  | Some k => Js.eqb k `""
  end.

Definition criticalError : jsstring :=
  `"Critical Error: Could not initialize AI model. The app is "
  ++ `"non-functional. Please check your API key and network connection, "
  ++ `"then refresh the page.".

(** [initializeChat], called by [main] once [terminalOutput] is assigned
    and while [currentPath] is [['~']]: the session it created, if it
    returns [true], and the terminal lines after it. *)
Definition initializeChat (key : option jsstring) (throws : bool)
    (out : list Line) : option Chat * list Line :=
  if keyMissing key || throws then
    (None, out ++ [mkLine logError None criticalError])
  else (Some (mkChat 0 (Js.join `"/" [`"~"])), out).

(** What the page is after [main].  Nothing that [main] calls throws in
    this model, so the error box of its own [catch] does not appear. *)
Inductive Page : Type :=
| ErrorPage (heading : jsstring)   (* the body replaced by an error box *)
| Inoperative (out : list Line)    (* the terminal shown, every input left
                                      disabled, no chat session *)
| Ready (s : State).               (* every input enabled *)

Definition initializing : Line :=
  mkLine logResponse None `"Initializing AI Tutor...".

Definition initialized : Line :=
  mkLine logResponse None
    `"AI Tutor initialized. Start by typing a command or clicking a bubble.".

Definition main (b : Boot) : Page :=
  if keyMissing (apiKey b) then ErrorPage `"Configuration Error"
  else if negb (elementsFound b) then ErrorPage `"App Error"
  else
    match initializeChat (apiKey b) (clientThrows b) [initializing] with
    | (Some c, out) =>
        Ready (mkState [`"~"] c [] (pagePrompt b) (out ++ [initialized])
                 (pageInput b) false)
    | (None, out) => Inoperative out
    end.

(** ** getGoalExplanation (lines 289-313) *)

(** The goal panel: the text typed in [goalInput], whether [goalInput] and
    [goalSubmitBtn] are disabled, and the markup of [goalOutput]. *)
Record GoalPanel : Type := mkGoalPanel {
  goalValue : jsstring;
  goalInputDisabled : bool;
  goalSubmitDisabled : bool;
  goalOutput : jsstring
}.

Definition goalFailure : jsstring :=
  `"<div class=" ++ [34%N] ++ `"log-error" ++ [34%N]
  ++ `">Sorry, I couldn't generate a guide for that. "
  ++ `"Please try again.</div>".

(** [getGoalExplanation] up to the [await] (lines 290-298): nothing for a
    blank goal, else the panel while the request is in flight. *)
Definition requestGuide (g : GoalPanel) : option GoalPanel :=
  let goal := Js.trim (goalValue g) in
  if Js.eqb goal `"" then None
  else Some (mkGoalPanel (goalValue g) true true `"Thinking...").

(** [getGoalExplanation] from the [await] on (lines 298-312).  [render]
    stands for [DOMPurify.sanitize(marked.parse(text))], which may throw;
    [outcome] is how [ai.models.generateContent] settles. *)
Definition settleGuide (render : option jsstring -> Completion jsstring)
    (outcome : SendOutcome) (g : GoalPanel) : GoalPanel :=
  let shown :=
    match outcome with
    | Resolved text =>
        match render text with
        | Normal markup => markup
        | Throw _ => goalFailure
        end
    | Failed _ => goalFailure
    end in
  mkGoalPanel (goalValue g) false false shown.

Definition getGoalExplanation (render : option jsstring -> Completion jsstring)
    (outcome : SendOutcome) (g : GoalPanel) : GoalPanel :=
  match requestGuide g with
  | None => g
  | Some inFlight => settleGuide render outcome inFlight
  end.

(** * Properties *)

(** ** String equality *)

Lemma eqb_eq (a b : jsstring) : Js.eqb a b = true <-> a = b.
Proof.
  revert b; induction a as [|x a IH]; intros [|y b]; simpl;
    try (split; (reflexivity || discriminate)).
  rewrite andb_true_iff, N.eqb_eq, IH.
  split; [intros [-> ->]; reflexivity | intros H; inversion H; auto].
Qed.

Lemma eqb_refl (a : jsstring) : Js.eqb a a = true.
Proof. apply eqb_eq; reflexivity. Qed.

Lemma eqb_neq (a b : jsstring) : Js.eqb a b = false <-> a <> b.
Proof.
  rewrite <- eqb_eq. destruct (Js.eqb a b); split; congruence.
Qed.

(** ** The tree walk *)

Section Walk.

(** Once [currentLevel] is [undefined] or [null] the walk ends there,
    returns [null], or throws: it never finds a node again. *)
Lemma walk_nullish (v : Value) (p : list jsstring) (w : Value) :
  truthy v = false -> walk v p = Normal w -> truthy w = false.
Proof.
  intros Hv. destruct p as [|a p]; simpl.
  - intros [= <-]; exact Hv.
  - destruct (Js.eqb a `"~").
    + destruct v; simpl in *; try discriminate.
    + destruct v as [| [c|] | | |]; simpl in *;
        try discriminate; intros [= <-]; reflexivity.
Qed.

(** From a value that is neither the top object nor a directory the walk
    never reaches a directory. *)
Lemma walk_off_directory (v : Value) (p : list jsstring) (w : Value) :
  v <> VFileSystem -> isDirectory v = false ->
  walk v p = Normal w -> isDirectory w = false.
Proof.
  intros Hfs Hv. destruct p as [|a p]; simpl.
  - intros [= <-]; exact Hv.
  - destruct (Js.eqb a `"~").
    + destruct v as [| n | k | |]; simpl; try discriminate;
        try congruence;
        intros H; apply walk_nullish in H; auto;
        destruct w as [| [c|] | | |]; simpl in *; congruence.
    + destruct v as [| [c|] | | |]; simpl in *;
        try discriminate; try congruence; intros [= <-]; reflexivity.
Qed.

Lemma getProperty_not_top (props : list (jsstring * Node)) (key : jsstring) :
  getProperty props key <> VFileSystem.
Proof.
  unfold getProperty. destruct (ownProperty props key); try discriminate.
  destruct (existsb _ _); discriminate.
Qed.

Lemma getProperty_directory props key c :
  getProperty props key = VNode (Dir c) -> ownProperty props key = Some (Dir c).
Proof.
  unfold getProperty. destruct (ownProperty props key).
  - intros [= ->]; reflexivity.
  - destruct (existsb _ _); discriminate.
Qed.

Lemma ownProperty_In props key n :
  ownProperty props key = Some n -> In (key, n) props.
Proof.
  induction props as [|[k m] props IH]; simpl; try discriminate.
  destruct (Js.eqb key k) eqn:E.
  - apply eqb_eq in E. intros [= ->]. left; congruence.
  - intros H; right; auto.
Qed.

(** A walk from a directory that ends in a directory goes through a child
    directory at its first step. *)
Lemma walk_directory_step children a p c :
  walk (VNode (Dir children)) (a :: p) = Normal (VNode (Dir c)) ->
  a <> `"~" /\
  exists children',
    ownProperty children a = Some (Dir children') /\
    walk (VNode (Dir children')) p = Normal (VNode (Dir c)).
Proof.
  simpl. destruct (Js.eqb a `"~") eqn:E.
  - intros H. apply walk_nullish in H; [discriminate | reflexivity].
  - intros H. apply eqb_neq in E. split; [exact E|].
    destruct (getProperty children a) as [| [c'|] | k | |] eqn:G;
      simpl in H; try discriminate;
      try (exfalso; eapply getProperty_not_top; eassumption).
    + apply getProperty_directory in G. eauto.
    + apply walk_off_directory in H; simpl in *; congruence.
    + apply walk_off_directory in H; simpl in *; congruence.
Qed.

(** Every prefix of a walk that ends in a directory ends in a directory. *)
Lemma walk_prefix_directory p : forall children c n,
  walk (VNode (Dir children)) p = Normal (VNode (Dir c)) ->
  exists c', walk (VNode (Dir children)) (firstn n p) = Normal (VNode (Dir c')).
Proof.
  induction p as [|a p IH]; intros children c n H.
  - rewrite firstn_nil. eauto.
  - destruct n as [|n]; [simpl; eauto|].
    pose proof H as H'.
    apply walk_directory_step in H' as (Ha & ch' & Hown & Hw).
    destruct (IH ch' c n Hw) as [c' Hc'].
    exists c'. simpl firstn.
    simpl. apply eqb_neq in Ha. rewrite Ha.
    unfold getProperty. rewrite Hown. simpl. exact Hc'.
Qed.

(** A path that [getDirectory] resolves to a directory starts with the
    home sentinel and continues from the home directory. *)
Lemma getDirectory_directory p c :
  getDirectory p = Normal (VNode (Dir c)) ->
  exists rest home,
    p = `"~" :: rest /\ ownProperty fileSystem `"~" = Some (Dir home) /\
    walk (VNode (Dir home)) rest = Normal (VNode (Dir c)).
Proof.
  unfold getDirectory. destruct p as [|a p]; simpl; try discriminate.
  destruct (Js.eqb a `"~") eqn:E; try discriminate.
  apply eqb_eq in E. subst a. intros H.
  eexists p, _. split; [reflexivity|]. split; [reflexivity|]. exact H.
Qed.

End Walk.

(** ** The invariant of [currentPath] *)

Lemma reachesDirectory_home : reachesDirectory [`"~"].
Proof. eexists. reflexivity. Qed.

Lemma reachesDirectory_invariant (p : list jsstring) :
  reachesDirectory p -> pathInvariant p.
Proof.
  intros [c H].
  destruct (getDirectory_directory _ _ H) as (rest & home & -> & Hown & Hw).
  split; [eauto|].
  intros [|n] Hn; [lia|].
  destruct (walk_prefix_directory rest _ _ n Hw) as [c' Hc'].
  exists c'. simpl firstn. unfold getDirectory. simpl.
  unfold getProperty. rewrite Hown. exact Hc'.
Qed.

(** In the seeded tree the paths that resolve to a directory are the four
    directories. *)
Lemma reachesDirectory_seeded (p : list jsstring) :
  reachesDirectory p -> In p directories.
Proof.
  intros [c H].
  destruct (getDirectory_directory _ _ H) as (rest & home & -> & Hown & Hw).
  injection Hown as <-.
  destruct rest as [|a rest]; [left; reflexivity|].
  apply walk_directory_step in Hw as (_ & ch & Hch & Hw).
  apply ownProperty_In in Hch.
  destruct rest as [|b rest].
  - simpl in Hch.
    destruct Hch as [E|[E|[E|[E|[]]]]]; inversion E; subst; simpl; auto.
  - apply walk_directory_step in Hw as (_ & ch' & Hch' & _).
    apply ownProperty_In in Hch'. simpl in Hch.
    destruct Hch as [E|[E|[E|[E|[]]]]]; inversion E; subst; simpl in Hch';
      repeat (destruct Hch' as [Hch'|Hch']; try discriminate Hch');
      contradiction.
Qed.

Lemma directories_reach (p : list jsstring) :
  In p directories -> reachesDirectory p.
Proof.
  intros [<-|[<-|[<-|[<-|[]]]]]; eexists; reflexivity.
Qed.

(** ** What [handleCd] does to the state *)

Ltac run_monad :=
  cbv beta iota delta
    [appendToTerminal appendLine setCurrentPath setChat logSession
     setPromptText setInputValue setInputDisabled renderFileSystem
     scrollToBottom tryCatch tryFinally bind ret throw gets modify liftC];
  cbn [currentPath chat sessionLog promptText terminalOutput inputValue
       inputDisabled fst snd].

Ltac run_controller :=
  unfold handleCd, changeDirectory, updateUI, chatsCreate; run_monad.

Lemma assigned_reachesDirectory (cp p : list jsstring) :
  assigned cp p -> reachesDirectory p.
Proof.
  intros [->|(arg & _ & H)]; [apply reachesDirectory_home | exact H].
Qed.

(** The only exception the walk raises is the [TypeError] of reading ['~']
    off [undefined]. *)
Lemma walk_throws_TypeError (p : list jsstring) : forall v e,
  walk v p = Throw e -> e = TypeError.
Proof.
  induction p as [|a p IH]; intros v e; simpl; try discriminate.
  destruct (Js.eqb a `"~").
  - destruct v; simpl; eauto; congruence.
  - destruct v as [| [c|] | | |]; try discriminate.
    destruct (truthy _); [eauto | discriminate].
Qed.

(** [handleCd] either throws out of [getDirectory] before touching
    anything, or reports the error and changes nothing else, or commits
    [['~']] or a path that [getDirectory] resolved to a directory. *)
Lemma handleCd_outcomes (ai : Engine) (arg : jsstring) (s : State) :
  handleCd ai arg s = (Throw TypeError, s) \/
  handleCd ai arg s = (Normal tt, reported arg s) \/
  (fst (handleCd ai arg s) = Normal tt /\
   assigned (currentPath s) (currentPath (snd (handleCd ai arg s)))).
Proof.
  run_controller.
  destruct (Js.eqb arg `"" || Js.eqb arg `"~").
  - right; right. destruct (createThrows ai); simpl;
      (split; [reflexivity | left; reflexivity]).
  - destruct (getDirectory (resolvePath (currentPath s) arg))
      as [v|e] eqn:G.
    + destruct (isDirectory v) eqn:D; simpl.
      * right; right.
        destruct v as [| [c|] | | |]; try discriminate D.
        destruct (createThrows ai); simpl;
          (split; [reflexivity
                  | right; exists arg; split;
                    [reflexivity | exists c; exact G]]).
      * right; left. reflexivity.
    + left. apply walk_throws_TypeError in G. subst e. reflexivity.
Qed.

(** ** What [runCommand] does to the state *)

(** Whatever the engine answers, settling a request touches neither the
    path nor the chat session, and re-enables the input. *)
Lemma settleCommand_frame (outcome : SendOutcome) (s : State) :
  let s' := snd (settleCommand outcome s) in
  currentPath s' = currentPath s /\ chat s' = chat s /\
  sessionLog s' = sessionLog s /\ inputDisabled s' = false.
Proof.
  unfold settleCommand; run_monad.
  destruct outcome as [[text|]|[|[m|]|]]; simpl;
    try (destruct (Js.eqb text `"")); simpl; auto.
Qed.

(** A command line is a no-op, a [cd] run by [handleCd] on the echoed
    state, or a request that settles. *)
Lemma runCommand_cases (ai : Engine) (line : jsstring) (s : State) :
  runCommand ai line s = (Normal tt, s) \/
  (exists arg,
     runCommand ai line s = handleCd ai arg (echoed (Js.trim line) s)) \/
  (exists s', currentPath s' = currentPath s /\ chat s' = chat s /\
     sessionLog s' = sessionLog s /\
     runCommand ai line s = settleCommand (sendOutcome ai) s').
Proof.
  unfold runCommand, issueCommand; run_monad.
  destruct (Js.eqb (Js.trim line) `""); [left; reflexivity|].
  right.
  destruct (hd_error (Js.splitWhiteSpace (Js.trim line))) as [c|].
  - destruct (Js.eqb c `"cd").
    + left. exists (Js.join `" " (tl (Js.splitWhiteSpace (Js.trim line)))).
      unfold echoed.
      destruct (handleCd ai _ _) as [[[]|e] s']; reflexivity.
    + right. eexists. split; [|split; [|split]]; [| | |reflexivity];
        reflexivity.
  - right. eexists. split; [|split; [|split]]; [| | |reflexivity];
      reflexivity.
Qed.

Lemma step_reachesDirectory (s : State) (i : Interaction) :
  reachesDirectory (currentPath s) ->
  reachesDirectory (currentPath (step s i)).
Proof.
  intros Hs. unfold step.
  destruct (runCommand_cases (engine i) (typed i) s)
    as [E|[[arg E]|(s' & Hp & _ & _ & E)]]; rewrite E.
  - exact Hs.
  - destruct (handleCd_outcomes (engine i) arg (echoed (Js.trim (typed i)) s))
      as [H|[H|[_ H]]]; try rewrite H; simpl; auto.
    eapply assigned_reachesDirectory, H.
  - destruct (settleCommand_frame (sendOutcome (engine i)) s') as (H & _).
    rewrite H, Hp. exact Hs.
Qed.

Lemma runSession_reachesDirectory (cmds : list Interaction) : forall s,
  reachesDirectory (currentPath s) ->
  reachesDirectory (currentPath (runSession s cmds)).
Proof.
  induction cmds as [|i cmds IH]; intros s Hs; simpl; [exact Hs|].
  apply IH, step_reachesDirectory, Hs.
Qed.

(** Each command leaves [currentPath] alone or assigns it one of the values
    of [assigned]. *)
Lemma step_assigns (s : State) (i : Interaction) :
  currentPath (step s i) = currentPath s \/
  assigned (currentPath s) (currentPath (step s i)).
Proof.
  unfold step.
  destruct (runCommand_cases (engine i) (typed i) s)
    as [E|[[arg E]|(s' & Hp & _ & _ & E)]]; rewrite E.
  - left; reflexivity.
  - destruct (handleCd_outcomes (engine i) arg (echoed (Js.trim (typed i)) s))
      as [H|[H|[_ H]]]; try rewrite H; simpl; auto.
  - destruct (settleCommand_frame (sendOutcome (engine i)) s') as (H & _).
    left. rewrite H, Hp. reflexivity.
Qed.


(** ** Failed navigation *)

(** When the walk returns something that is not a directory ([null],
    [undefined], a file, an inherited member), [handleCd] appends the error
    line naming its argument and changes nothing else. *)
Lemma handleCd_not_directory (ai : Engine) (arg : jsstring) (s : State) v :
  Js.eqb arg `"" || Js.eqb arg `"~" = false ->
  getDirectory (resolvePath (currentPath s) arg) = Normal v ->
  isDirectory v = false ->
  handleCd ai arg s = (Normal tt, reported arg s).
Proof.
  intros Hs Hg Hd. run_controller. rewrite Hs, Hg, Hd. reflexivity.
Qed.

(** When the walk throws, [handleCd] throws with the state untouched. *)
Lemma handleCd_throws (ai : Engine) (arg : jsstring) (s : State) e :
  Js.eqb arg `"" || Js.eqb arg `"~" = false ->
  getDirectory (resolvePath (currentPath s) arg) = Throw e ->
  handleCd ai arg s = (Throw e, s).
Proof.
  intros Hs Hg. run_controller. rewrite Hs, Hg. reflexivity.
Qed.

(** A path with no home sentinel after its first segment never makes the
    walk throw. *)
Lemma walk_returns (p : list jsstring) : forall v,
  ~ In `"~" p -> exists w, walk v p = Normal w.
Proof.
  induction p as [|a p IH]; intros v Hp; simpl; [eauto|].
  destruct (Js.eqb a `"~") eqn:E.
  - apply eqb_eq in E. exfalso; apply Hp; left; auto.
  - assert (Hp' : ~ In `"~" p) by (intros H; apply Hp; right; exact H).
    destruct v as [| [c|] | | |]; eauto.
    destruct (truthy _); eauto.
Qed.

Lemma getDirectory_returns (p : list jsstring) :
  ~ In `"~" (tl p) -> exists w, getDirectory p = Normal w.
Proof.
  unfold getDirectory. destruct p as [|a p]; simpl; [eauto|]. intros Hp.
  destruct (Js.eqb a `"~"); [apply walk_returns, Hp | eauto].
Qed.

(** C1, evaluated where it fails.  From the home directory,
    [cd documents/~/~] names an entry that does not exist: [documents] is a
    directory whose children do not include ['~'].  [handleCd] then throws
    the [TypeError] of [getDirectory] instead of appending the
    "No such file or directory" line naming the argument; the state,
    [currentPath] and the chat session included, is left as it was. *)
Theorem handleCd_missing_sentinel_not_reported (ai : Engine)
    (prompt : jsstring) :
  let s := initialState prompt in
  let arg := `"documents/~/~" in
  resolvePath (currentPath s) arg = [`"~"; `"documents"; `"~"; `"~"] /\
  getDirectory [`"~"; `"documents"]
    = Normal (VNode (Dir [(`"report.docx", File)])) /\
  ownProperty [(`"report.docx", File)] `"~" = None /\
  handleCd ai arg s = (Throw TypeError, s) /\
  handleCd ai arg s <> (Normal tt, reported arg s).
Proof.
  assert (H : handleCd ai `"documents/~/~" (initialState prompt)
              = (Throw TypeError, initialState prompt))
    by (apply handleCd_throws; reflexivity).
  cbv zeta. rewrite H.
  repeat split; try reflexivity. discriminate.
Qed.

(** C3, evaluated where it fails.  [['~']] satisfies the invariant and
    [documents/~/~] is an input path string, yet the walk over the
    accumulated segments does not return: after [documents] the first ['~']
    reads [undefined] off the directory object and the second reads ['~']
    off [undefined], which throws. *)
Theorem getDirectory_throws_on_inner_sentinels :
  pathInvariant [`"~"] /\
  resolvePath [`"~"] `"documents/~/~" = [`"~"; `"documents"; `"~"; `"~"] /\
  getDirectory [`"~"; `"documents"; `"~"] = Normal VUndefined /\
  getDirectory [`"~"; `"documents"; `"~"; `"~"] = Throw TypeError /\
  forall v, getDirectory (resolvePath [`"~"] `"documents/~/~") <> Normal v.
Proof.
  split; [apply reachesDirectory_invariant, reachesDirectory_home|].
  repeat split; try reflexivity.
  intros v. vm_compute. discriminate.
Qed.

(** ** Scenario 5 *)

(** C2, as the code has it.  [cd music], [cd ..], [cd music] from the home
    directory end at [['~'; 'music']]; each of the three commands is a
    successful navigation and creates a session, so the context is
    regenerated three times, for [~/music], [~] and [~/music]. *)
Theorem music_up_music_regenerates_thrice (prompt : jsstring)
    (o1 o2 o3 : SendOutcome) :
  let s := runSession (initialState prompt) (musicUpMusic o1 o2 o3) in
  currentPath s = [`"~"; `"music"] /\
  sessionLog s = [`"~/music"; `"~"; `"~/music"] /\
  length (sessionLog s) = 3 /\
  chat s = mkChat 3 `"~/music".
Proof. repeat split. Qed.

(** The count of two regenerations does not hold of that run. *)
Lemma music_up_music_not_twice :
  let s := runSession (initialState `"user@gemini:~$")
             (musicUpMusic (Resolved None) (Resolved None) (Resolved None)) in
  ~ (currentPath s = [`"~"; `"music"] /\ length (sessionLog s) = 2).
Proof. vm_compute. intros [_ H]. discriminate H. Qed.

(** ** Successful navigation *)

(** What a successful [cd] leaves: the new path and prompt, and either a
    new session for the new path, or, when the engine refuses to create
    one, the old session and a warning line. *)
Lemma handleCd_navigates (ai : Engine) (arg : jsstring) (s : State) p :
  navigatesTo (currentPath s) arg p ->
  handleCd ai arg s =
    (Normal tt,
     if createThrows ai then
       committed p (chat s) (sessionLog s)
         (terminalOutput s ++ [mkLine logError None contextWarning]) s
     else
       committed p (mkChat (S (length (sessionLog s))) (Js.join `"/" p))
         (sessionLog s ++ [Js.join `"/" p]) (terminalOutput s) s).
Proof.
  intros [[Hs ->]|(Hs & -> & [c Hc])]; run_controller; rewrite Hs.
  - destruct (createThrows ai); reflexivity.
  - rewrite Hc. cbn [isDirectory].
    destruct (createThrows ai); reflexivity.
Qed.

(** ** Ascending with [..] *)

(** The first accumulated segment is never popped. *)
Lemma accumulate_keeps_first (parts : list jsstring) : forall first acc,
  exists acc', fold_left accumulate parts (first :: acc) = first :: acc'.
Proof.
  induction parts as [|part parts IH]; intros first acc; simpl; [eauto|].
  unfold accumulate at 2.
  destruct (Js.eqb part `"..").
  - destruct acc as [|x acc]; simpl (1 <? _); cbv iota; [apply IH|].
    change (removelast (first :: x :: acc))
      with (first :: removelast (x :: acc)).
    apply IH.
  - destruct (negb _ && negb _); [rewrite <- app_comm_cons|]; apply IH.
Qed.

(** ** Failure to regenerate the context *)

(** C6. When a navigation succeeds (the reset to the home directory, or a
    resolved path that is a directory) and creating the new session
    throws, [handleCd] returns normally: the new path stays committed, the
    chat session is the old one, and the warning that the terminal may not
    respond correctly is appended as an error line. *)
Theorem context_failure_keeps_navigation (ai : Engine) (arg : jsstring)
    (s : State) (p : list jsstring) :
  navigatesTo (currentPath s) arg p ->
  createThrows ai = true ->
  handleCd ai arg s =
    (Normal tt,
     committed p (chat s) (sessionLog s)
       (terminalOutput s ++ [mkLine logError None contextWarning]) s) /\
  currentPath (snd (handleCd ai arg s)) = p /\
  chat (snd (handleCd ai arg s)) = chat s.
Proof.
  intros Hnav Hthrows.
  rewrite (handleCd_navigates ai arg s p Hnav), Hthrows.
  repeat split.
Qed.

Lemma context_failure_keeps_navigation_witness :
  currentPath
    (snd (handleCd (mkEngine true (Resolved None)) `"music"
            (initialState `"user@gemini:~$"))) = [`"~"; `"music"] /\
  terminalOutput
    (snd (handleCd (mkEngine true (Resolved None)) `"music"
            (initialState `"user@gemini:~$")))
    = [mkLine logError None contextWarning].
Proof.
  destruct (context_failure_keeps_navigation
              (mkEngine true (Resolved None)) `"music"
              (initialState `"user@gemini:~$") [`"~"; `"music"])
    as (H & _).
  - right. split; [reflexivity|]. split; [reflexivity|].
    eexists; reflexivity.
  - reflexivity.
  - rewrite H. split; reflexivity.
Defined.

(** ** Resolving the current location *)

Lemma pathInvariant_reachesDirectory (p : list jsstring) :
  pathInvariant p -> reachesDirectory p.
Proof.
  intros [[rest ->] H].
  rewrite <- (firstn_all (`"~" :: rest)). apply H. simpl; lia.
Qed.

(** C7. For the path reached by any session, resolving ["."] against it
    gives that path back, and [cd .] succeeds and leaves the path as it
    is; accumulation ignores every ["."] and every empty segment, so
    [".//./"] resolves to the current path as well. *)
Theorem resolve_dot_is_identity (prompt : jsstring) (cmds : list Interaction) :
  let s := runSession (initialState prompt) cmds in
  resolvePath (currentPath s) `"." = currentPath s /\
  resolvePath (currentPath s) `".//./" = currentPath s /\
  (forall acc, accumulate acc `"." = acc /\ accumulate acc `"" = acc) /\
  forall ai,
    fst (handleCd ai `"." s) = Normal tt /\
    currentPath (snd (handleCd ai `"." s)) = currentPath s.
Proof.
  cbv zeta.
  set (s := runSession (initialState prompt) cmds).
  assert (Hdir : reachesDirectory (currentPath s))
    by (apply runSession_reachesDirectory, reachesDirectory_home).
  assert (Hdot : resolvePath (currentPath s) `"." = currentPath s).
  { destruct (reachesDirectory_seeded _ Hdir) as [E|[E|[E|[E|[]]]]];
      rewrite <- E; reflexivity. }
  split; [exact Hdot|]. split; [|split].
  - destruct (reachesDirectory_seeded _ Hdir) as [E|[E|[E|[E|[]]]]];
      rewrite <- E; reflexivity.
  - intros acc. split; reflexivity.
  - intros ai.
    rewrite (handleCd_navigates ai `"." s (currentPath s)).
    + destruct (createThrows ai); split; reflexivity.
    + right. split; [reflexivity|]. split; [symmetry; exact Hdot|exact Hdir].
Qed.

(** ** The prompt form of a path *)

(** C8. For a path that satisfies the invariant, [displayPath] is the home
    sentinel alone for [['~']] and ["~/a/b"] for a deeper path, and
    resolving that string against the path gives the path back: the
    accumulated segments are the path itself, they resolve to a directory,
    and [cd] with that string succeeds and leaves the path as it is. *)
Theorem displayPath_round_trip (p : list jsstring) :
  pathInvariant p ->
  displayPath [`"~"] = `"~" /\
  (forall a rest,
     p = `"~" :: a :: rest ->
     displayPath p = `"~/" ++ Js.join `"/" (a :: rest)) /\
  resolvePath p (displayPath p) = p /\
  reachesDirectory (resolvePath p (displayPath p)) /\
  forall ai s,
    currentPath s = p ->
    fst (handleCd ai (displayPath p) s) = Normal tt /\
    currentPath (snd (handleCd ai (displayPath p) s)) = p.
Proof.
  intros Hinv. apply pathInvariant_reachesDirectory in Hinv.
  assert (Hres : resolvePath p (displayPath p) = p).
  { destruct (reachesDirectory_seeded _ Hinv) as [E|[E|[E|[E|[]]]]];
      rewrite <- E; reflexivity. }
  split; [reflexivity|]. split; [|split; [exact Hres|split]].
  - intros a rest ->. reflexivity.
  - rewrite Hres. exact Hinv.
  - intros ai s Hs.
    assert (Hnav : navigatesTo (currentPath s) (displayPath p) p).
    { rewrite Hs.
      destruct (Js.eqb (displayPath p) `"" || Js.eqb (displayPath p) `"~")
        eqn:Hspecial.
      - left. split; [exact Hspecial|].
        destruct (reachesDirectory_seeded _ Hinv) as [E|[E|[E|[E|[]]]]];
          rewrite <- E in *; try reflexivity; discriminate Hspecial.
      - right. split; [exact Hspecial|].
        split; [symmetry; exact Hres|exact Hinv]. }
    rewrite (handleCd_navigates ai (displayPath p) s p Hnav).
    destruct (createThrows ai); split; reflexivity.
Qed.

Lemma displayPath_round_trip_witness :
  displayPath [`"~"; `"documents"] = `"~/documents" /\
  resolvePath [`"~"; `"documents"] (displayPath [`"~"; `"documents"])
    = [`"~"; `"documents"].
Proof.
  destruct (displayPath_round_trip [`"~"; `"documents"])
    as (_ & Hshow & Hres & _).
  - apply reachesDirectory_invariant. eexists; reflexivity.
  - split; [|exact Hres].
    rewrite (Hshow `"documents" []); reflexivity.
Defined.

(** ** Remote commands *)

(** C9. A command line whose first token is not [cd] is sent to the
    engine with the input disabled; however the call settles (a response
    with text, with empty or no text, a rejection or exception carrying a
    message or none, a rejection with [null] or [undefined]) the input is
    enabled again, also when the error handler itself throws. *)
Theorem remote_command_returns_to_idle (ai : Engine) (line : jsstring)
    (s : State) :
  Js.eqb (Js.trim line) `"" = false ->
  hd_error (Js.splitWhiteSpace (Js.trim line)) <> Some `"cd" ->
  exists s',
    issueCommand ai line s = (Normal (Awaiting (Js.trim line)), s') /\
    inputDisabled s' = true /\
    (forall outcome, inputDisabled (snd (settleCommand outcome s')) = false) /\
    runCommand ai line s = settleCommand (sendOutcome ai) s' /\
    inputDisabled (snd (runCommand ai line s)) = false.
Proof.
  intros Hline Hcmd.
  assert (Hsettle : forall outcome s',
             inputDisabled (snd (settleCommand outcome s')) = false)
    by (intros; apply settleCommand_frame).
  unfold runCommand, issueCommand; run_monad. rewrite Hline.
  destruct (hd_error (Js.splitWhiteSpace (Js.trim line))) as [c|].
  - destruct (Js.eqb c `"cd") eqn:E.
    + apply eqb_eq in E. congruence.
    + eexists. split; [reflexivity|]. split; [reflexivity|].
      split; [intros; apply Hsettle|]. split; [reflexivity|apply Hsettle].
  - eexists. split; [reflexivity|]. split; [reflexivity|].
    split; [intros; apply Hsettle|]. split; [reflexivity|apply Hsettle].
Qed.

Lemma remote_command_returns_to_idle_witness :
  inputDisabled
    (snd (runCommand (mkEngine false (Failed NullRejection)) `"ls -l"
            (initialState `"user@gemini:~$"))) = false.
Proof.
  destruct (remote_command_returns_to_idle
              (mkEngine false (Failed NullRejection)) `"ls -l"
              (initialState `"user@gemini:~$"))
    as (s' & _ & _ & _ & _ & H).
  - reflexivity.
  - vm_compute. discriminate.
  - exact H.
Defined.

(** ** Splitting the command line *)

Section CommandLine.

Lemma dropWhile_blank (w x : jsstring) :
  blank w -> Js.dropWhile Js.isWhiteSpace (w ++ x)
             = Js.dropWhile Js.isWhiteSpace x.
Proof.
  unfold blank. induction w as [|c w IH]; simpl; [reflexivity|].
  intros H. apply andb_true_iff in H as [Hc Hw]. rewrite Hc. auto.
Qed.

Lemma dropWhile_token (t x : jsstring) :
  isToken t -> Js.dropWhile Js.isWhiteSpace (t ++ x) = t ++ x.
Proof.
  intros [Hne Ht]. destruct t as [|c t]; [congruence|].
  unfold solid in Ht. simpl in *.
  apply andb_true_iff in Ht as [Hc _].
  apply negb_true_iff in Hc. rewrite Hc. reflexivity.
Qed.

Lemma blank_rev (w : jsstring) : blank w -> blank (rev w).
Proof.
  unfold blank. rewrite !forallb_forall. intros H c Hc.
  apply H, in_rev, Hc.
Qed.

Lemma isToken_rev (t : jsstring) : isToken t -> isToken (rev t).
Proof.
  intros [Hne Ht]. split.
  - intros H. apply Hne. rewrite <- (rev_involutive t), H. reflexivity.
  - unfold solid in *. rewrite forallb_forall in *.
    intros c Hc. apply Ht, in_rev, Hc.
Qed.

(** [trim] strips the white space around a body that starts and ends
    with a token. *)
Lemma trim_wrapped (lead trail first mid last_ : jsstring) body :
  blank lead -> blank trail ->
  isToken first -> isToken last_ ->
  body = first ++ mid -> (exists pre, body = pre ++ last_) ->
  Js.trim (lead ++ body ++ trail) = body.
Proof.
  intros Hlead Htrail Hfirst Hlast Hbody [pre Hpre]. unfold Js.trim.
  rewrite dropWhile_blank by exact Hlead.
  rewrite Hbody at 1. rewrite <- app_assoc.
  rewrite dropWhile_token by exact Hfirst.
  rewrite app_assoc, <- Hbody, rev_app_distr.
  rewrite dropWhile_blank by (apply blank_rev, Htrail).
  rewrite Hpre at 1. rewrite rev_app_distr.
  rewrite dropWhile_token by (apply isToken_rev, Hlast).
  rewrite <- rev_app_distr, <- Hpre. apply rev_involutive.
Qed.

Lemma splitWhiteSpaceFrom_cons (b : bool) (x : jsstring) :
  Js.splitWhiteSpaceFrom b x
  = hd [] (Js.splitWhiteSpaceFrom b x) :: tl (Js.splitWhiteSpaceFrom b x).
Proof.
  revert b; induction x as [|c x IH]; intros b; simpl; [reflexivity|].
  destruct (Js.isWhiteSpace c).
  - destruct b; [apply IH | reflexivity].
  - destruct (Js.splitWhiteSpaceFrom false x); reflexivity.
Qed.

(** Characters that are not white space extend the segment in front. *)
Lemma splitWhiteSpaceFrom_solid (t x : jsstring) :
  solid t ->
  Js.splitWhiteSpaceFrom false (t ++ x)
  = (t ++ hd [] (Js.splitWhiteSpaceFrom false x))
      :: tl (Js.splitWhiteSpaceFrom false x).
Proof.
  unfold solid. induction t as [|c t IH]; simpl.
  - intros _. apply splitWhiteSpaceFrom_cons.
  - intros H. apply andb_true_iff in H as [Hc Ht].
    apply negb_true_iff in Hc. rewrite Hc, (IH Ht). reflexivity.
Qed.

Lemma splitWhiteSpaceFrom_blank (w x : jsstring) :
  blank w ->
  Js.splitWhiteSpaceFrom true (w ++ x) = Js.splitWhiteSpaceFrom true x.
Proof.
  unfold blank. induction w as [|c w IH]; simpl; [reflexivity|].
  intros H. apply andb_true_iff in H as [Hc Hw]. rewrite Hc. auto.
Qed.

(** A run of white space separates once. *)
Lemma splitWhiteSpaceFrom_gap (w x : jsstring) :
  isGap w ->
  Js.splitWhiteSpaceFrom false (w ++ x)
  = [] :: Js.splitWhiteSpaceFrom true x.
Proof.
  intros [Hne Hw]. destruct w as [|c w]; [congruence|].
  unfold blank in Hw. simpl in *.
  apply andb_true_iff in Hw as [Hc Hw]. rewrite Hc.
  f_equal. apply splitWhiteSpaceFrom_blank, Hw.
Qed.

Lemma splitWhiteSpaceFrom_token (t x : jsstring) :
  isToken t ->
  Js.splitWhiteSpaceFrom true (t ++ x)
  = Js.splitWhiteSpaceFrom false (t ++ x).
Proof.
  intros [Hne Ht]. destruct t as [|c t]; [congruence|].
  unfold solid in Ht. simpl in *.
  apply andb_true_iff in Ht as [Hc _].
  apply negb_true_iff in Hc. rewrite Hc. reflexivity.
Qed.

Lemma splitWhiteSpace_gapped (args : list (jsstring * jsstring)) :
  Forall (fun a => isGap (fst a) /\ isToken (snd a)) args ->
  Js.splitWhiteSpaceFrom false (gapped args) = [] :: map snd args.
Proof.
  unfold gapped. induction 1 as [|[w t] args [Hw Ht] _ IH]; simpl;
    [reflexivity|].
  rewrite <- app_assoc, splitWhiteSpaceFrom_gap by exact Hw.
  rewrite splitWhiteSpaceFrom_token by exact Ht.
  rewrite splitWhiteSpaceFrom_solid by apply Ht.
  rewrite IH. simpl. rewrite app_nil_r. reflexivity.
Qed.

Lemma gapped_ends_with_token (args : list (jsstring * jsstring)) :
  Forall (fun a => isGap (fst a) /\ isToken (snd a)) args ->
  exists pre last_, isToken last_ /\ `"cd" ++ gapped args = pre ++ last_.
Proof.
  intros Hargs. induction args as [|[w t] front _] using rev_ind.
  - exists [], `"cd". split; [|reflexivity]. split; [discriminate|reflexivity].
  - apply Forall_app in Hargs as [_ Hlast].
    inversion Hlast as [|? ? [_ Ht] _]; subst.
    exists (`"cd" ++ gapped front ++ w), t. split; [exact Ht|].
    unfold gapped. rewrite map_app, concat_app. simpl.
    rewrite app_nil_r, <- !app_assoc. reflexivity.
Qed.

End CommandLine.

(** A non-empty command line whose first token is [cd] is handled by
    [handleCd], on the echoed state, with the other tokens joined by single
    spaces. *)
Lemma runCommand_cd (ai : Engine) (line : jsstring) (s : State) args :
  Js.eqb (Js.trim line) `"" = false ->
  Js.splitWhiteSpace (Js.trim line) = `"cd" :: args ->
  runCommand ai line s
  = handleCd ai (Js.join `" " args) (echoed (Js.trim line) s).
Proof.
  intros Hline Htokens.
  unfold runCommand, issueCommand; run_monad. rewrite Hline, Htokens.
  cbn [hd_error tl].
  replace (Js.eqb `"cd" `"cd") with true by reflexivity.
  unfold echoed. destruct (handleCd ai _ _) as [[[]|e] s']; reflexivity.
Qed.

(** C10. On a command line made of [cd] and further tokens, each after a
    run of white space (with optional white space around the line),
    [runCommand] splits the trimmed line into [cd] and exactly those
    tokens and calls [handleCd] with the tokens joined by single spaces:
    the runs of white space between them become one space each and no
    token is dropped or rejected.  So [cd foo   bar] is a change to the
    single entry [foo bar], which the seeded tree does not have. *)
Theorem cd_arguments_joined (lead trail : jsstring)
    (args : list (jsstring * jsstring)) (ai : Engine) (s : State) :
  blank lead -> blank trail ->
  Forall (fun a => isGap (fst a) /\ isToken (snd a)) args ->
  let line := cdLine lead args trail in
  Js.trim line = `"cd" ++ gapped args /\
  Js.splitWhiteSpace (Js.trim line) = `"cd" :: map snd args /\
  runCommand ai line s
  = handleCd ai (Js.join `" " (map snd args)) (echoed (Js.trim line) s) /\
  forall prompt,
    runCommand ai `"cd foo   bar" (initialState prompt)
    = (Normal tt,
       reported `"foo bar" (echoed `"cd foo   bar" (initialState prompt))).
Proof.
  intros Hlead Htrail Hargs. cbv zeta.
  assert (Htrim : Js.trim (cdLine lead args trail) = `"cd" ++ gapped args).
  { destruct (gapped_ends_with_token args Hargs) as (pre & last_ & Hlast & E).
    unfold cdLine.
    apply (trim_wrapped lead trail `"cd" (gapped args) last_); auto.
    - split; [discriminate|reflexivity].
    - eauto. }
  assert (Hsplit : Js.splitWhiteSpace (Js.trim (cdLine lead args trail))
                   = `"cd" :: map snd args).
  { rewrite Htrim. unfold Js.splitWhiteSpace.
    rewrite splitWhiteSpaceFrom_solid by reflexivity.
    rewrite splitWhiteSpace_gapped by exact Hargs. reflexivity. }
  split; [exact Htrim|]. split; [exact Hsplit|]. split.
  - apply runCommand_cd; [|exact Hsplit]. rewrite Htrim. reflexivity.
  - intros prompt.
    rewrite (runCommand_cd ai `"cd foo   bar" (initialState prompt)
               [`"foo"; `"bar"]) by reflexivity.
    apply handleCd_not_directory with (v := VNull); reflexivity.
Qed.

Lemma cd_arguments_joined_witness :
  Js.splitWhiteSpace (Js.trim `" cd foo   bar ") = [`"cd"; `"foo"; `"bar"] /\
  runCommand healthy `" cd foo   bar " (initialState `"user@gemini:~$")
  = handleCd healthy `"foo bar"
      (echoed `"cd foo   bar" (initialState `"user@gemini:~$")).
Proof.
  destruct (cd_arguments_joined `" " `" " [(`" ", `"foo"); (`"   ", `"bar")]
              healthy (initialState `"user@gemini:~$"))
    as (_ & Hsplit & Hrun & _).
  - reflexivity.
  - reflexivity.
  - repeat constructor; simpl; discriminate.
  - split; [exact Hsplit | exact Hrun].
Defined.

(** * Further properties of the controller *)

(** ** Closed forms *)

Lemma handleCd_succeeds (ai : Engine) (arg : jsstring) (s : State) :
  cdSucceeds (currentPath s) arg = true ->
  navigatesTo (currentPath s) arg (cdTarget (currentPath s) arg).
Proof.
  unfold cdSucceeds, cdTarget, navigatesTo.
  destruct (Js.eqb arg `"" || Js.eqb arg `"~"); [auto|].
  destruct (getDirectory (resolvePath (currentPath s) arg))
    as [[| [c|] | | |]|e] eqn:G; simpl; try discriminate.
  intros _. right. split; [reflexivity|]. split; [reflexivity|].
  exists c. exact G.
Qed.

Lemma handleCd_fails (ai : Engine) (arg : jsstring) (s : State) :
  cdSucceeds (currentPath s) arg = false ->
  handleCd ai arg s = (Throw TypeError, s) \/
  handleCd ai arg s = (Normal tt, reported arg s).
Proof.
  unfold cdSucceeds.
  destruct (Js.eqb arg `"" || Js.eqb arg `"~") eqn:Hs; [discriminate|].
  destruct (getDirectory (resolvePath (currentPath s) arg)) as [v|e] eqn:G.
  - intros Hd. right. eapply handleCd_not_directory; eauto.
  - intros _. left. pose proof G as G'.
    apply walk_throws_TypeError in G'. subst e.
    apply handleCd_throws; assumption.
Qed.

Lemma settleCommand_eq (outcome : SendOutcome) (s : State) :
  settleCommand outcome s =
  match outcome with
  | Resolved (Some text) =>
      if Js.eqb text `"" then (Normal tt, withInputDisabled false s)
      else (Normal tt,
            withInputDisabled false (withLine (mkLine logResponse None text) s))
  | Resolved None => (Normal tt, withInputDisabled false s)
  | Failed e =>
      match errorMessage e with
      | Normal m =>
          (Normal tt,
           withInputDisabled false
             (withLine (mkLine logError None (`"Error: " ++ m)) s))
      | Throw x => (Throw x, withInputDisabled false s)
      end
  end.
Proof.
  unfold settleCommand; run_monad.
  destruct outcome as [[text|]|[|[m|]|]]; simpl;
    try (destruct (Js.eqb text `"")); reflexivity.
Qed.

Lemma runCommand_eq (ai : Engine) (line : jsstring) (s : State) :
  runCommand ai line s =
  if Js.eqb (Js.trim line) `"" then (Normal tt, s)
  else
    let tokens := Js.splitWhiteSpace (Js.trim line) in
    match hd_error tokens with
    | Some c =>
        if Js.eqb c `"cd" then
          handleCd ai (Js.join `" " (tl tokens)) (echoed (Js.trim line) s)
        else
          settleCommand (sendOutcome ai)
            (withInputDisabled true (echoed (Js.trim line) s))
    | None =>
        settleCommand (sendOutcome ai)
          (withInputDisabled true (echoed (Js.trim line) s))
    end.
Proof.
  unfold runCommand, issueCommand; run_monad.
  destruct (Js.eqb (Js.trim line) `""); [reflexivity|]. cbv zeta.
  destruct (hd_error (Js.splitWhiteSpace (Js.trim line))) as [c|];
    [destruct (Js.eqb c `"cd")|]; try reflexivity.
  unfold echoed. destruct (handleCd ai _ _) as [[[]|e] s']; reflexivity.
Qed.

(** ** Sessions created by [cd] *)

(** X1. Every [cd] that commits a path asks the engine for one session, for
    the committed path, also when that path is the one the session was
    already in ([cd .], or [cd] at home); a [cd] that fails, or a session
    the engine refuses, adds none. *)
Theorem cd_creates_one_session (ai : Engine) (arg : jsstring) (s : State) :
  sessionLog (snd (handleCd ai arg s)) =
  if cdSucceeds (currentPath s) arg && negb (createThrows ai) then
    sessionLog s ++ [Js.join `"/" (cdTarget (currentPath s) arg)]
  else sessionLog s.
Proof.
  destruct (cdSucceeds (currentPath s) arg) eqn:Hok.
  - rewrite (handleCd_navigates ai arg s _ (handleCd_succeeds ai arg s Hok)).
    destruct (createThrows ai); reflexivity.
  - destruct (handleCd_fails ai arg s Hok) as [H|H]; rewrite H; reflexivity.
Qed.

(** ** What a command may change *)

(** X2. No command moves the session anywhere but to one of the four
    directories of the seeded tree: names inherited from Object.prototype
    ([constructor], [__proto__], ...), files and missing entries are never
    committed, from whatever state the command runs. *)
Theorem only_directories_are_committed (s : State) (i : Interaction) :
  currentPath (step s i) = currentPath s \/
  In (currentPath (step s i)) directories.
Proof.
  destruct (step_assigns s i) as [H|H]; [left; exact H|right].
  apply reachesDirectory_seeded. eapply assigned_reachesDirectory, H.
Qed.

(** The states a command can leave, [e] being the state with the command
    echoed: the state as it was (blank line); [e] itself ([getDirectory]
    threw); [e] with the error of a failed [cd]; [e] moved to the target of
    a successful [cd], with a new session or with the warning; [e] with
    the input enabled and at most one line from the engine. *)
Lemma step_cases (s : State) (i : Interaction) :
  let e := echoed (Js.trim (typed i)) s in
  (Js.eqb (Js.trim (typed i)) `"" = true /\ step s i = s) \/
  (Js.eqb (Js.trim (typed i)) `"" = false /\
   (step s i = e \/
    (exists arg, step s i = reported arg e) \/
    (exists arg,
       cdSucceeds (currentPath s) arg = true /\
       step s i =
         let p := cdTarget (currentPath s) arg in
         if createThrows (engine i) then
           committed p (chat e) (sessionLog e)
             (terminalOutput e ++ [mkLine logError None contextWarning]) e
         else
           committed p (mkChat (S (length (sessionLog e))) (Js.join `"/" p))
             (sessionLog e ++ [Js.join `"/" p]) (terminalOutput e) e) \/
    step s i = withInputDisabled false e \/
    (exists l, step s i = withInputDisabled false (withLine l e)))).
Proof.
  cbv zeta. unfold step. rewrite runCommand_eq.
  destruct (Js.eqb (Js.trim (typed i)) `""); [left; auto|right].
  split; [reflexivity|]. cbv zeta.
  set (e := echoed (Js.trim (typed i)) s).
  assert (Hsettle :
            snd (settleCommand (sendOutcome (engine i))
                   (withInputDisabled true e)) = withInputDisabled false e \/
            exists l, snd (settleCommand (sendOutcome (engine i))
                             (withInputDisabled true e))
                      = withInputDisabled false (withLine l e)).
  { rewrite settleCommand_eq.
    destruct (sendOutcome (engine i)) as [[text|]|[|[m|]|]]; simpl;
      try (destruct (Js.eqb text `"")); simpl;
      first [left; reflexivity | right; eexists; reflexivity]. }
  destruct (hd_error (Js.splitWhiteSpace (Js.trim (typed i)))) as [c|];
    [destruct (Js.eqb c `"cd")|]; try (do 3 right; exact Hsettle).
  set (arg := Js.join `" " (tl (Js.splitWhiteSpace (Js.trim (typed i))))).
  destruct (cdSucceeds (currentPath e) arg) eqn:Hok.
  - right; right; left. exists arg. split; [exact Hok|].
    rewrite (handleCd_navigates (engine i) arg e _
               (handleCd_succeeds (engine i) arg e Hok)).
    destruct (createThrows (engine i)); reflexivity.
  - destruct (handleCd_fails (engine i) arg e Hok) as [H|H]; rewrite H.
    + left; reflexivity.
    + right; left. exists arg. reflexivity.
Qed.

(** X3. The prompt follows the path: if the prompt shows the current path
    before a session, as it does when the page starts with the prompt of
    the home directory, it shows the current path after it, whatever was
    typed and however the engine behaved. *)
Theorem prompt_follows_path (s : State) (cmds : list Interaction) :
  promptText s = promptFor (currentPath s) ->
  promptText (runSession s cmds)
  = promptFor (currentPath (runSession s cmds)).
Proof.
  revert s. induction cmds as [|i cmds IH]; intros s Hs; [exact Hs|].
  simpl. apply IH.
  destruct (step_cases s i)
    as [[_ H]|[_ [H|[[arg H]|[(arg & _ & H)|[H|[l H]]]]]]];
    rewrite H; try exact Hs.
  cbv zeta. destruct (createThrows (engine i)); reflexivity.
Qed.

Lemma prompt_follows_path_witness :
  promptText
    (runSession (initialState `"user@gemini:~$")
       [mkInteraction `"cd images" healthy; mkInteraction `"ls" healthy;
        mkInteraction `"cd photo.jpg" healthy])
  = `"user@gemini:~/images$".
Proof.
  rewrite prompt_follows_path; reflexivity.
Defined.

(** X4. The chat context follows the path as long as the engine creates the
    sessions it is asked for: if the session in use was created for the
    current path before the commands, it is after them. *)
Theorem chat_context_follows_path (s : State) (cmds : list Interaction) :
  chatContext (chat s) = Js.join `"/" (currentPath s) ->
  Forall (fun i => createThrows (engine i) = false) cmds ->
  chatContext (chat (runSession s cmds))
  = Js.join `"/" (currentPath (runSession s cmds)).
Proof.
  revert s. induction cmds as [|i cmds IH]; intros s Hs Hcmds; [exact Hs|].
  inversion Hcmds as [|? ? Hi Hrest]; subst. simpl. apply IH; [|exact Hrest].
  destruct (step_cases s i)
    as [[_ H]|[_ [H|[[arg H]|[(arg & _ & H)|[H|[l H]]]]]]];
    rewrite H; try exact Hs.
  cbv zeta. rewrite Hi. reflexivity.
Qed.

Lemma chat_context_follows_path_witness :
  chatContext
    (chat (runSession (initialState `"user@gemini:~$")
             [mkInteraction `"cd images" healthy;
              mkInteraction `"cd ../music" healthy]))
  = `"~/music".
Proof.
  rewrite chat_context_follows_path.
  - reflexivity.
  - reflexivity.
  - repeat constructor.
Defined.

(** X5. The terminal only grows: a command keeps every earlier line and adds
    at most two, none for a blank line, and otherwise first the echo of
    the trimmed command behind the prompt as it was before the command. *)
Theorem terminal_only_grows (s : State) (i : Interaction) :
  exists added,
    terminalOutput (step s i) = terminalOutput s ++ added /\
    length added <= 2 /\
    (Js.eqb (Js.trim (typed i)) `"" = true -> added = []) /\
    (Js.eqb (Js.trim (typed i)) `"" = false ->
     exists more,
       added = mkLine logCommand (Some (promptText s)) (Js.trim (typed i))
               :: more).
Proof.
  destruct (step_cases s i)
    as [[Hb H]|[Hb [H|[[arg H]|[(arg & _ & H)|[H|[l H]]]]]]];
    rewrite H, Hb.
  - exists []. rewrite app_nil_r. repeat split; auto; discriminate.
  - eexists [_]. simpl. repeat split; eauto; discriminate.
  - eexists [_; _]. simpl. rewrite <- app_assoc.
    repeat split; eauto; discriminate.
  - cbv zeta. destruct (createThrows (engine i)).
    + eexists [_; _]. simpl. rewrite <- app_assoc.
      repeat split; eauto; discriminate.
    + eexists [_]. simpl. repeat split; eauto; discriminate.
  - eexists [_]. simpl. repeat split; eauto; discriminate.
  - eexists [_; _]. simpl. rewrite <- app_assoc.
    repeat split; eauto; discriminate.
Qed.

Lemma terminal_only_grows_witness :
  exists more,
    terminalOutput
      (step (initialState `"user@gemini:~$")
         (mkInteraction `" cd music " healthy))
    = [] ++ mkLine logCommand (Some `"user@gemini:~$") `"cd music" :: more.
Proof.
  destruct (terminal_only_grows (initialState `"user@gemini:~$")
              (mkInteraction `" cd music " healthy))
    as (added & Hout & _ & _ & Hecho).
  destruct (Hecho eq_refl) as [more Hmore].
  exists more. rewrite Hout, Hmore. reflexivity.
Defined.

(** ** Blank lines, remote commands, [cd] commands *)

Lemma dropWhile_nil_blank (w : jsstring) :
  Js.dropWhile Js.isWhiteSpace w = [] -> blank w.
Proof.
  unfold blank. induction w as [|c w IH]; simpl; [reflexivity|].
  destruct (Js.isWhiteSpace c); [exact IH | discriminate].
Qed.

Lemma dropWhile_starts (w : jsstring) :
  Js.dropWhile Js.isWhiteSpace w = [] \/
  exists c rest, Js.dropWhile Js.isWhiteSpace w = c :: rest /\
                 Js.isWhiteSpace c = false.
Proof.
  induction w as [|c w IH]; simpl; [left; reflexivity|].
  destruct (Js.isWhiteSpace c) eqn:E; [exact IH | right; eauto].
Qed.

Lemma dropWhile_suffix (w : jsstring) :
  exists pre, blank pre /\ w = pre ++ Js.dropWhile Js.isWhiteSpace w.
Proof.
  unfold blank. induction w as [|c w (pre & Hpre & IH)]; simpl.
  - exists []. auto.
  - destruct (Js.isWhiteSpace c) eqn:E.
    + exists (c :: pre). simpl. rewrite E, Hpre.
      split; [reflexivity | f_equal; exact IH].
    + exists []. auto.
Qed.

(** [trim] gives the empty string exactly on the strings made of white
    space only. *)
Lemma trim_empty_iff (line : jsstring) :
  Js.trim line = [] <-> blank line.
Proof.
  unfold Js.trim. split.
  - intros H.
    assert (Hrev : Js.dropWhile Js.isWhiteSpace
                     (rev (Js.dropWhile Js.isWhiteSpace line)) = []).
    { rewrite <- (rev_involutive (Js.dropWhile _ (rev _))), H. reflexivity. }
    apply dropWhile_nil_blank, blank_rev in Hrev.
    rewrite rev_involutive in Hrev.
    destruct (dropWhile_starts line) as [E|(c & rest & E & Hc)].
    + apply dropWhile_nil_blank, E.
    + rewrite E in Hrev. unfold blank in Hrev. simpl in Hrev.
      rewrite Hc in Hrev. discriminate.
  - intros H. rewrite <- (app_nil_r line).
    rewrite dropWhile_blank by exact H. reflexivity.
Qed.

(** X6. A line of white space only does nothing at all: no echo, no change
    to the input box, no request; any other line is echoed. *)
Theorem blank_line_is_ignored (ai : Engine) (line : jsstring) (s : State) :
  (blank line -> runCommand ai line s = (Normal tt, s)) /\
  (~ blank line ->
   exists more,
     terminalOutput (snd (runCommand ai line s))
     = terminalOutput s
       ++ mkLine logCommand (Some (promptText s)) (Js.trim line) :: more).
Proof.
  split.
  - intros H. apply trim_empty_iff in H.
    rewrite runCommand_eq, H. reflexivity.
  - intros H.
    assert (Hb : Js.eqb (Js.trim line) `"" = false).
    { apply eqb_neq. intros E. apply H, trim_empty_iff, E. }
    change (runCommand ai line s) with
      (runCommand (engine (mkInteraction line ai))
         (typed (mkInteraction line ai)) s).
    fold (step s (mkInteraction line ai)).
    destruct (step_cases s (mkInteraction line ai))
      as [[Hb' _]|[_ [H'|[[arg H']|[(arg & _ & H')|[H'|[l H']]]]]]];
      [cbn [typed] in Hb'; congruence| | | | |]; rewrite H';
      cbn [typed engine echoed reported withInputDisabled withLine
           terminalOutput promptText].
    + exists []. reflexivity.
    + eexists [_]. rewrite <- app_assoc. reflexivity.
    + destruct (createThrows ai); cbn [terminalOutput committed].
      * eexists [_]. rewrite <- app_assoc. reflexivity.
      * exists []. reflexivity.
    + exists []. reflexivity.
    + eexists [_]. rewrite <- app_assoc. reflexivity.
Qed.

Lemma blank_line_is_ignored_witness :
  runCommand healthy [32%N; 9%N; 160%N] (initialState `"user@gemini:~$")
  = (Normal tt, initialState `"user@gemini:~$") /\
  exists more,
    terminalOutput
      (snd (runCommand healthy `" pwd" (initialState `"user@gemini:~$")))
    = [] ++ mkLine logCommand (Some `"user@gemini:~$") `"pwd" :: more.
Proof.
  split.
  - apply blank_line_is_ignored. reflexivity.
  - apply (blank_line_is_ignored healthy `" pwd"
             (initialState `"user@gemini:~$")).
    discriminate.
Defined.

(** X7. A command that is not [cd] changes neither the path, nor the chat
    session, nor the prompt: only the terminal lines and the input box. *)
Theorem remote_command_keeps_location (ai : Engine) (line : jsstring)
    (s : State) :
  Js.eqb (Js.trim line) `"" = false ->
  hd_error (Js.splitWhiteSpace (Js.trim line)) <> Some `"cd" ->
  let s' := snd (runCommand ai line s) in
  currentPath s' = currentPath s /\ chat s' = chat s /\
  sessionLog s' = sessionLog s /\ promptText s' = promptText s /\
  inputValue s' = `"".
Proof.
  intros Hline Hcmd. cbv zeta. rewrite runCommand_eq, Hline. cbv zeta.
  assert (Hsettle : forall o,
             let s' := snd (settleCommand o
                              (withInputDisabled true
                                 (echoed (Js.trim line) s))) in
             currentPath s' = currentPath s /\ chat s' = chat s /\
             sessionLog s' = sessionLog s /\ promptText s' = promptText s /\
             inputValue s' = `"").
  { intros o. rewrite settleCommand_eq.
    destruct o as [[text|]|[|[m|]|]]; simpl;
      try (destruct (Js.eqb text `"")); simpl; repeat split. }
  destruct (hd_error (Js.splitWhiteSpace (Js.trim line))) as [c|];
    [|apply Hsettle].
  destruct (Js.eqb c `"cd") eqn:E; [|apply Hsettle].
  apply eqb_eq in E. congruence.
Qed.

Lemma remote_command_keeps_location_witness :
  currentPath
    (snd (runCommand (mkEngine false (Resolved (Some `"/home/user")))
            `"cdrom ~/music" (initialState `"user@gemini:~$")))
  = [`"~"].
Proof.
  apply (remote_command_keeps_location
           (mkEngine false (Resolved (Some `"/home/user")))
           `"cdrom ~/music" (initialState `"user@gemini:~$")).
  - reflexivity.
  - vm_compute. discriminate.
Defined.

(** X8. A [cd] command is handled without a request to the engine: it leaves
    the input as enabled or disabled as it was, clears the input box, and
    adds no response line. *)
Theorem cd_makes_no_request (ai : Engine) (line : jsstring) (s : State)
    (args : list jsstring) :
  Js.splitWhiteSpace (Js.trim line) = `"cd" :: args ->
  let s' := snd (runCommand ai line s) in
  inputDisabled s' = inputDisabled s /\
  inputValue s' = `"" /\
  forall l, In l (terminalOutput s') ->
            lineType l = logResponse -> In l (terminalOutput s).
Proof.
  intros Htokens. cbv zeta.
  assert (Hline : Js.eqb (Js.trim line) `"" = false).
  { apply eqb_neq. intros E. rewrite E in Htokens. discriminate. }
  rewrite (runCommand_cd ai line s args Hline Htokens).
  set (e := echoed (Js.trim line) s).
  assert (He : forall l, In l (terminalOutput e) -> lineType l = logResponse ->
                         In l (terminalOutput s)).
  { intros l Hl Ht. apply in_app_or in Hl as [Hl|[<-|[]]]; [exact Hl|].
    discriminate Ht. }
  destruct (cdSucceeds (currentPath e) (Js.join `" " args)) eqn:Hok.
  - rewrite (handleCd_navigates ai _ e _ (handleCd_succeeds ai _ e Hok)).
    destruct (createThrows ai); cbn [snd committed inputDisabled inputValue
                                      terminalOutput];
      repeat split; auto.
    intros l Hl Ht. apply in_app_or in Hl as [Hl|[<-|[]]]; [auto|].
    discriminate Ht.
  - destruct (handleCd_fails ai _ e Hok) as [H|H]; rewrite H;
      cbn [snd reported inputDisabled inputValue terminalOutput];
      repeat split; auto.
    intros l Hl Ht. apply in_app_or in Hl as [Hl|[<-|[]]]; [auto|].
    discriminate Ht.
Qed.

Lemma cd_makes_no_request_witness :
  inputDisabled
    (snd (runCommand (mkEngine false (Resolved (Some `"ok"))) `"cd music"
            (initialState `"user@gemini:~$")))
  = false.
Proof.
  apply (cd_makes_no_request (mkEngine false (Resolved (Some `"ok")))
           `"cd music" (initialState `"user@gemini:~$") [`"music"]).
  reflexivity.
Defined.

(** X9. The only exception that escapes [runCommand] is a [TypeError]: the one
    of [getDirectory] during a [cd], or the one of reading [message] off a
    rejection that is [null] or [undefined].  In both cases the command
    has been echoed and nothing else is added to the terminal; for the
    rejection the input is enabled again. *)
Theorem runCommand_throws_only_TypeError (ai : Engine) (line : jsstring)
    (s : State) (e : Exception) :
  fst (runCommand ai line s) = Throw e ->
  e = TypeError /\
  terminalOutput (snd (runCommand ai line s))
  = terminalOutput s
    ++ [mkLine logCommand (Some (promptText s)) (Js.trim line)] /\
  (hd_error (Js.splitWhiteSpace (Js.trim line)) <> Some `"cd" ->
   sendOutcome ai = Failed NullRejection /\
   inputDisabled (snd (runCommand ai line s)) = false).
Proof.
  rewrite runCommand_eq.
  destruct (Js.eqb (Js.trim line) `""); [discriminate|]. cbv zeta.
  assert (Hsettle :
            fst (settleCommand (sendOutcome ai)
                   (withInputDisabled true (echoed (Js.trim line) s)))
            = Throw e ->
            e = TypeError /\
            terminalOutput
              (snd (settleCommand (sendOutcome ai)
                      (withInputDisabled true (echoed (Js.trim line) s))))
            = terminalOutput s
              ++ [mkLine logCommand (Some (promptText s)) (Js.trim line)] /\
            sendOutcome ai = Failed NullRejection /\
            inputDisabled
              (snd (settleCommand (sendOutcome ai)
                      (withInputDisabled true (echoed (Js.trim line) s))))
            = false).
  { rewrite settleCommand_eq.
    destruct (sendOutcome ai) as [[text|]|[|[m|]|]]; simpl;
      try (destruct (Js.eqb text `"")); simpl; try discriminate.
    intros [= <-]. repeat split. }
  destruct (hd_error (Js.splitWhiteSpace (Js.trim line))) as [c|].
  - destruct (Js.eqb c `"cd") eqn:E.
    + apply eqb_eq in E. subst c.
      destruct (handleCd_outcomes ai
                  (Js.join `" " (tl (Js.splitWhiteSpace (Js.trim line))))
                  (echoed (Js.trim line) s)) as [H|[H|[H _]]];
        rewrite H; try discriminate.
      intros [= <-]. split; [reflexivity|]. split; [reflexivity|].
      intros Hcd. congruence.
    + intros H. destruct (Hsettle H) as (H1 & H2 & H3 & H4). auto.
  - intros H. destruct (Hsettle H) as (H1 & H2 & H3 & H4). auto.
Qed.

Lemma runCommand_throws_only_TypeError_witness :
  terminalOutput
    (snd (runCommand healthy `"cd documents/~/~"
            (initialState `"user@gemini:~$")))
  = [mkLine logCommand (Some `"user@gemini:~$") `"cd documents/~/~"].
Proof.
  apply (runCommand_throws_only_TypeError healthy `"cd documents/~/~"
           (initialState `"user@gemini:~$") TypeError).
  reflexivity.
Defined.

(** X10. [cd] alone and [cd ~] go to the home directory from anywhere: the
    command succeeds, the path is [['~']] and the prompt shows [~]. *)
Theorem cd_goes_home (ai : Engine) (line : jsstring) (s : State) :
  Js.splitWhiteSpace (Js.trim line) = [`"cd"] \/
  Js.splitWhiteSpace (Js.trim line) = [`"cd"; `"~"] ->
  fst (runCommand ai line s) = Normal tt /\
  currentPath (snd (runCommand ai line s)) = [`"~"] /\
  promptText (snd (runCommand ai line s)) = `"user@gemini:~$".
Proof.
  intros Htokens.
  assert (Hline : Js.eqb (Js.trim line) `"" = false).
  { apply eqb_neq. intros E. rewrite E in Htokens.
    destruct Htokens; discriminate. }
  assert (Hhome : forall arg,
             Js.eqb arg `"" || Js.eqb arg `"~" = true ->
             let r := handleCd ai arg (echoed (Js.trim line) s) in
             fst r = Normal tt /\ currentPath (snd r) = [`"~"] /\
             promptText (snd r) = `"user@gemini:~$").
  { intros arg Harg. cbv zeta.
    rewrite (handleCd_navigates ai arg _ [`"~"]) by (left; auto).
    destruct (createThrows ai); repeat split. }
  destruct Htokens as [H|H];
    rewrite (runCommand_cd ai line s _ Hline H); apply Hhome; reflexivity.
Qed.

Lemma cd_goes_home_witness :
  currentPath
    (snd (runCommand healthy `"  cd  "
            (mkState [`"~"; `"images"] (mkChat 1 `"~/images") [`"~/images"]
               `"user@gemini:~/images$" [] `"" false)))
  = [`"~"].
Proof.
  apply (cd_goes_home healthy `"  cd  "
           (mkState [`"~"; `"images"] (mkChat 1 `"~/images") [`"~/images"]
              `"user@gemini:~/images$" [] `"" false)).
  left. reflexivity.
Defined.

(** ** Path accumulation *)

Lemma accumulate_proper (acc : list jsstring) (part : jsstring) :
  properSegment part -> accumulate acc part = acc ++ [part].
Proof.
  intros (H1 & H2 & H3). unfold accumulate.
  apply eqb_neq in H1, H2, H3. rewrite H1, H2, H3. reflexivity.
Qed.

Lemma accumulate_cases (acc : list jsstring) (part : jsstring) :
  accumulate acc part = removelast acc \/
  accumulate acc part = acc \/
  (properSegment part /\ accumulate acc part = acc ++ [part]).
Proof.
  unfold accumulate.
  destruct (Js.eqb part `"..") eqn:E1.
  - destruct (1 <? length acc); auto.
  - destruct (Js.eqb part `".") eqn:E2; simpl; auto.
    destruct (Js.eqb part `"") eqn:E3; simpl; auto.
    right; right. apply eqb_neq in E1, E2, E3. repeat split; auto.
Qed.

Lemma fold_accumulate_proper (parts : list jsstring) : forall acc,
  Forall properSegment parts -> fold_left accumulate parts acc = acc ++ parts.
Proof.
  induction parts as [|part parts IH]; intros acc Hparts; simpl.
  - rewrite app_nil_r. reflexivity.
  - inversion Hparts as [|? ? Hpart Hrest]; subst.
    rewrite accumulate_proper, IH, <- app_assoc by assumption. reflexivity.
Qed.

Lemma Forall_removelast {A} (P : A -> Prop) (l : list A) :
  Forall P l -> Forall P (removelast l).
Proof.
  induction 1 as [|x l Hx Hl IH]; simpl; [constructor|].
  destruct l; [constructor|]. constructor; assumption.
Qed.

Lemma fold_accumulate_normal (parts : list jsstring) : forall acc,
  Forall properSegment acc ->
  Forall properSegment (fold_left accumulate parts acc).
Proof.
  induction parts as [|part parts IH]; intros acc Hacc; simpl; [exact Hacc|].
  apply IH.
  destruct (accumulate_cases acc part) as [->|[->|[Hpart ->]]].
  - apply Forall_removelast, Hacc.
  - exact Hacc.
  - apply Forall_app. split; [exact Hacc|].
    constructor; [exact Hpart|constructor].
Qed.

(** X11. Whatever the current path and the argument, the accumulated path is
    in normal form: it has no [".."], no ["."] and no empty segment.  A
    path in normal form resolves ["."] to itself, so resolving ["."]
    against a resolved path gives it back. *)
Theorem resolvePath_normalises (cp : list jsstring) (arg : jsstring) :
  Forall properSegment (resolvePath cp arg) /\
  resolvePath (resolvePath cp arg) `"." = resolvePath cp arg /\
  (Forall properSegment cp -> resolvePath cp `"." = cp).
Proof.
  assert (Hnormal : forall cp' arg',
             Forall properSegment (resolvePath cp' arg'))
    by (intros; apply fold_accumulate_normal; constructor).
  assert (Hdot : forall p, Forall properSegment p -> resolvePath p `"." = p).
  { intros p Hp. unfold resolvePath.
    replace (Js.startsWith `"." `"~") with false by reflexivity.
    rewrite fold_left_app, (fold_accumulate_proper p [] Hp).
    reflexivity. }
  split; [apply Hnormal|]. split; [apply Hdot, Hnormal|apply Hdot].
Qed.

Lemma resolvePath_normalises_witness :
  resolvePath [`"~"; `"a b"; `"c"] `"." = [`"~"; `"a b"; `"c"].
Proof.
  apply (resolvePath_normalises [`"~"; `"a b"; `"c"] `"").
  repeat constructor; discriminate.
Defined.

Lemma split_cons (sep : char) (s : jsstring) :
  Js.split sep s = hd [] (Js.split sep s) :: tl (Js.split sep s).
Proof.
  destruct s as [|c s]; simpl; [reflexivity|].
  destruct (N.eqb c sep); [reflexivity|].
  destruct (Js.split sep s); reflexivity.
Qed.

Lemma startsWith_home (c : char) (s : jsstring) :
  Js.startsWith (c :: s) `"~" = N.eqb c 126.
Proof.
  change (Js.startsWith (c :: s) `"~") with (N.eqb c 126 && Js.startsWith s []).
  destruct s; simpl; apply andb_true_r.
Qed.

(** The first segment of an argument that starts with ['~'] starts with
    ['~']. *)
Lemma split_starts_with_home (arg : jsstring) :
  Js.startsWith arg `"~" = true ->
  exists first rest,
    Js.split Js.slash arg = first :: rest /\
    Js.startsWith first `"~" = true.
Proof.
  destruct arg as [|c arg]; [discriminate|].
  rewrite startsWith_home. intros Hc. apply N.eqb_eq in Hc. subst c.
  simpl Js.split. rewrite (split_cons Js.slash arg).
  eexists _, _. split; [reflexivity|]. apply startsWith_home.
Qed.

Lemma starts_with_home_proper (seg : jsstring) :
  Js.startsWith seg `"~" = true -> properSegment seg.
Proof.
  destruct seg as [|c seg]; [discriminate|].
  rewrite startsWith_home. intros Hc. apply N.eqb_eq in Hc. subst c.
  repeat split; discriminate.
Qed.

(** X12. From a path that starts at the home sentinel, every argument,
    relative or not, accumulates to a path that is not empty and whose
    first segment starts with ['~']: no argument empties the path or
    replaces its root by an ordinary name. *)
Theorem resolvePath_keeps_a_root (rest : list jsstring) (arg : jsstring) :
  exists first rest',
    resolvePath (`"~" :: rest) arg = first :: rest' /\
    Js.startsWith first `"~" = true /\
    (Js.startsWith arg `"~" = false -> first = `"~").
Proof.
  unfold resolvePath. destruct (Js.startsWith arg `"~") eqn:Habs.
  - destruct (split_starts_with_home arg Habs) as (first & segs & -> & Hfirst).
    simpl fold_left.
    rewrite (accumulate_proper [] first (starts_with_home_proper _ Hfirst)).
    cbn [app].
    destruct (accumulate_keeps_first segs first []) as [acc' ->].
    exists first, acc'. repeat split; auto. discriminate.
  - rewrite <- app_comm_cons. simpl fold_left.
    change (accumulate [] `"~") with [`"~"].
    destruct (accumulate_keeps_first (rest ++ Js.split Js.slash arg) `"~" [])
      as [acc' ->].
    exists `"~", acc'. repeat split.
Qed.

Lemma resolvePath_keeps_a_root_witness :
  exists first rest',
    resolvePath [`"~"; `"music"] `"../.." = first :: rest' /\ first = `"~".
Proof.
  destruct (resolvePath_keeps_a_root [`"music"] `"../..")
    as (first & rest' & H & _ & Hrel).
  exists first, rest'. split; [exact H | apply Hrel; reflexivity].
Defined.

(** ** Splitting and joining on the slash *)

Lemma split_app_sep (sep : char) (a b : jsstring) :
  Js.split sep (a ++ sep :: b) = Js.split sep a ++ Js.split sep b.
Proof.
  induction a as [|c a IH]; simpl.
  - rewrite N.eqb_refl. reflexivity.
  - destruct (N.eqb c sep).
    + rewrite IH. reflexivity.
    + rewrite IH, (split_cons sep a). reflexivity.
Qed.

Lemma split_without_sep (sep : char) (s : jsstring) :
  ~ In sep s -> Js.split sep s = [s].
Proof.
  induction s as [|c s IH]; simpl; [reflexivity|]. intros H.
  destruct (N.eqb c sep) eqn:E.
  - apply N.eqb_eq in E. exfalso. apply H. left. exact E.
  - rewrite IH by (intros Hin; apply H; right; exact Hin). reflexivity.
Qed.

Lemma split_join (sep : char) (parts : list jsstring) :
  parts <> [] -> Forall (fun seg => ~ In sep seg) parts ->
  Js.split sep (Js.join [sep] parts) = parts.
Proof.
  intros Hne Hparts. revert Hne.
  induction Hparts as [|p rest Hp Hrest IH]; intros Hne;
    [exfalso; apply Hne; reflexivity|].
  destruct rest as [|q rest].
  - simpl. apply split_without_sep, Hp.
  - change (Js.join [sep] (p :: q :: rest))
      with (p ++ sep :: Js.join [sep] (q :: rest)).
    rewrite split_app_sep, (split_without_sep sep p Hp), IH by discriminate.
    reflexivity.
Qed.

(** X13. An argument [~/x] resolves, from any directory, to what [x] resolves
    to from the home directory. *)
Theorem absolute_is_relative_to_home (cp : list jsstring) (x : jsstring) :
  Js.startsWith x `"~" = false ->
  resolvePath cp (`"~/" ++ x) = resolvePath [`"~"] x.
Proof.
  intros Hx. unfold resolvePath. rewrite Hx.
  change (`"~/" ++ x) with (126%N :: Js.slash :: x).
  rewrite startsWith_home.
  change (Js.split Js.slash (126%N :: Js.slash :: x))
    with (match [] :: Js.split Js.slash x with
          | seg :: segs => (126%N :: seg) :: segs
          | [] => [[126%N]]
          end).
  reflexivity.
Qed.

Lemma absolute_is_relative_to_home_witness :
  resolvePath [`"~"; `"images"] `"~/music/.." = resolvePath [`"~"] `"music/..".
Proof.
  apply (absolute_is_relative_to_home [`"~"; `"images"] `"music/..").
  reflexivity.
Defined.

(** X14. Relative arguments compose: resolving [a] and then [b] accumulates
    the same path as resolving [a/b] at once. *)
Theorem resolvePath_composes (cp : list jsstring) (a b : jsstring) :
  Js.startsWith a `"~" = false ->
  Js.startsWith b `"~" = false ->
  resolvePath (resolvePath cp a) b = resolvePath cp (a ++ `"/" ++ b).
Proof.
  intros Ha Hb.
  assert (Hab : Js.startsWith (a ++ `"/" ++ b) `"~" = false).
  { destruct a as [|c a]; [reflexivity|].
    rewrite <- app_comm_cons, startsWith_home.
    rewrite startsWith_home in Ha. exact Ha. }
  assert (Hnormal : Forall properSegment (resolvePath cp a))
    by (apply fold_accumulate_normal; constructor).
  unfold resolvePath at 1 3. rewrite Hb, Hab.
  change (a ++ `"/" ++ b) with (a ++ Js.slash :: b).
  rewrite split_app_sep, app_assoc, !fold_left_app.
  rewrite (fold_accumulate_proper (resolvePath cp a) [] Hnormal).
  cbn [app]. unfold resolvePath. rewrite Ha, fold_left_app. reflexivity.
Qed.

Lemma resolvePath_composes_witness :
  resolvePath (resolvePath [`"~"] `"documents/..") `"./images"
  = resolvePath [`"~"] `"documents/.././images".
Proof.
  apply (resolvePath_composes [`"~"] `"documents/.." `"./images");
    reflexivity.
Defined.

(** X15. The prompt form of a path resolves to that path from any directory,
    in any tree: for a path from the home sentinel whose other segments
    are proper and have no slash, accumulating [displayPath] gives the
    path back. *)
Theorem displayPath_resolves_anywhere (cp rest : list jsstring) :
  Forall properSegment rest ->
  Forall (fun seg => ~ In Js.slash seg) rest ->
  resolvePath cp (displayPath (`"~" :: rest)) = `"~" :: rest.
Proof.
  intros Hproper Hslash.
  destruct rest as [|q rest]; [reflexivity|].
  change (displayPath (`"~" :: q :: rest))
    with (126%N :: Js.slash :: Js.join [Js.slash] (q :: rest)).
  unfold resolvePath. rewrite startsWith_home.
  change (N.eqb 126 126) with true. cbv iota.
  change (126%N :: Js.slash :: Js.join [Js.slash] (q :: rest))
    with ([126%N] ++ Js.slash :: Js.join [Js.slash] (q :: rest)).
  rewrite split_app_sep, split_join by (discriminate || assumption).
  rewrite fold_accumulate_proper; [reflexivity|].
  constructor; [repeat split; discriminate | exact Hproper].
Qed.

Lemma displayPath_resolves_anywhere_witness :
  resolvePath [`"~"; `"music"] (displayPath [`"~"; `"my docs"; `"2024"])
  = [`"~"; `"my docs"; `"2024"].
Proof.
  apply (displayPath_resolves_anywhere [`"~"; `"music"] [`"my docs"; `"2024"]).
  - repeat constructor; discriminate.
  - repeat constructor; vm_compute; intuition discriminate.
Defined.

(** X16. The path shown in the prompt is the path given to the engine: for a
    path that starts at the home sentinel, [displayPath] and
    [currentPath.join('/')] are the same string, so they agree on the
    path of every session. *)
Theorem prompt_path_is_context_path :
  (forall rest,
     displayPath (`"~" :: rest) = Js.join `"/" (`"~" :: rest)) /\
  (forall prompt cmds,
     let s := runSession (initialState prompt) cmds in
     displayPath (currentPath s) = Js.join `"/" (currentPath s)).
Proof.
  assert (H : forall rest,
             displayPath (`"~" :: rest) = Js.join `"/" (`"~" :: rest))
    by (intros [|q rest]; reflexivity).
  split; [exact H|]. intros prompt cmds. cbv zeta.
  destruct (reachesDirectory_invariant
              (currentPath (runSession (initialState prompt) cmds)))
    as [[rest ->] _]; [|apply H].
  apply runSession_reachesDirectory, reachesDirectory_home.
Qed.

(** ** When the walk returns *)

Lemma walk_returns_without_adjacent_homes (p : list jsstring) : forall v,
  adjacentHomes p = false ->
  (truthy v = false -> hd `"" p <> `"~") ->
  exists w, walk v p = Normal w.
Proof.
  induction p as [|a p IH]; intros v Hadj Hv; [simpl; eauto|].
  assert (Hp : adjacentHomes p = false).
  { simpl in Hadj. destruct p; [reflexivity|].
    apply orb_false_iff in Hadj. apply Hadj. }
  simpl walk. destruct (Js.eqb a `"~") eqn:E.
  - assert (Hnext : hd `"" p <> `"~").
    { simpl in Hadj. destruct p as [|b p]; [discriminate|].
      apply orb_false_iff in Hadj as [Hab _]. rewrite E in Hab.
      simpl in Hab. apply eqb_neq in Hab. exact Hab. }
    destruct v; simpl.
    + apply IH; [exact Hp|]. discriminate.
    + apply IH; auto.
    + apply IH; auto.
    + exfalso. apply Hv; [reflexivity|]. apply eqb_eq, E.
    + exfalso. apply Hv; [reflexivity|]. apply eqb_eq, E.
  - destruct v as [| [c|] | | |]; eauto.
    destruct (truthy (getProperty c a)) eqn:T; [|eauto].
    apply IH; [exact Hp|]. rewrite T. discriminate.
Qed.

(** X17. [getDirectory] returns, with a value or [null], on every path that
    has no two consecutive ['~'] after its first segment; a single ['~']
    inside a path is looked up and found missing like any other name. *)
Theorem getDirectory_returns_without_adjacent_homes (p : list jsstring) :
  adjacentHomes (tl p) = false ->
  exists w, getDirectory p = Normal w.
Proof.
  unfold getDirectory. destruct p as [|a p]; [simpl; eauto|].
  simpl tl. intros Hadj. simpl walk.
  destruct (Js.eqb a `"~"); [|eauto].
  apply walk_returns_without_adjacent_homes; [exact Hadj|].
  discriminate.
Qed.

Lemma getDirectory_returns_without_adjacent_homes_witness :
  exists w, getDirectory [`"~"; `"documents"; `"~"; `"report.docx"; `"~"]
            = Normal w.
Proof.
  apply getDirectory_returns_without_adjacent_homes. reflexivity.
Defined.

(** ** The tokens of a command line *)

Lemma splitWhiteSpaceFrom_solid_segments (x : jsstring) : forall b,
  Forall solid (Js.splitWhiteSpaceFrom b x).
Proof.
  induction x as [|c x IH]; intros b; simpl.
  - repeat constructor.
  - destruct (Js.isWhiteSpace c) eqn:E.
    + destruct b; [apply IH|]. constructor; [reflexivity | apply IH].
    + specialize (IH false).
      destruct (Js.splitWhiteSpaceFrom false x) as [|seg segs].
      * repeat constructor. unfold solid. simpl. rewrite E. reflexivity.
      * inversion IH as [|? ? Hseg Hsegs]; subst.
        constructor; [|exact Hsegs].
        unfold solid in *. simpl. rewrite E, Hseg. reflexivity.
Qed.

(** In a string that ends with a character that is not white space, every
    segment after the first is non-empty, and the first one too when the
    split starts inside a run of white space or on a character that is
    not white space. *)
Lemma splitWhiteSpaceFrom_nonempty (x : jsstring) :
  x <> [] -> Js.isWhiteSpace (last x 0%N) = false ->
  Forall (fun t => t <> []) (Js.splitWhiteSpaceFrom true x) /\
  Forall (fun t => t <> []) (tl (Js.splitWhiteSpaceFrom false x)) /\
  (Js.isWhiteSpace (hd 0%N x) = false ->
   Forall (fun t => t <> []) (Js.splitWhiteSpaceFrom false x)).
Proof.
  induction x as [|c x IH]; [congruence|]. intros _ Hlast.
  destruct x as [|d x].
  - simpl in Hlast. simpl. rewrite Hlast.
    repeat split; repeat constructor; discriminate.
  - destruct IH as (IHa & IHb & IHc); [discriminate | exact Hlast |].
    remember (d :: x) as y eqn:Hy.
    simpl Js.splitWhiteSpaceFrom. simpl hd.
    destruct (Js.isWhiteSpace c) eqn:E.
    + split; [exact IHa|]. split; [exact IHa|]. discriminate.
    + rewrite (splitWhiteSpaceFrom_cons false y).
      assert (H : Forall (fun t : jsstring => t <> [])
                    ((c :: hd [] (Js.splitWhiteSpaceFrom false y))
                       :: tl (Js.splitWhiteSpaceFrom false y)))
        by (constructor; [discriminate | exact IHb]).
      split; [exact H|]. split; [exact IHb|]. intros _. exact H.
Qed.

(** A trimmed string is empty, or starts and ends with characters that
    are not white space. *)
Lemma trim_shape (line : jsstring) :
  Js.trim line = [] \/
  (Js.trim line <> [] /\
   Js.isWhiteSpace (hd 0%N (Js.trim line)) = false /\
   Js.isWhiteSpace (last (Js.trim line) 0%N) = false).
Proof.
  unfold Js.trim.
  set (d := Js.dropWhile Js.isWhiteSpace line).
  destruct (dropWhile_starts (rev d)) as [E|(c & rest & E & Hc)];
    [left; rewrite E; reflexivity|right].
  destruct (dropWhile_suffix (rev d)) as (pre & _ & Hpre).
  rewrite E in *. simpl rev.
  split; [intros H; apply app_eq_nil in H as [_ H]; discriminate|].
  split; [|rewrite last_last; exact Hc].
  assert (Hd : d = (rev rest ++ [c]) ++ rev pre).
  { rewrite <- (rev_involutive d), Hpre, rev_app_distr. reflexivity. }
  destruct (dropWhile_starts line) as [E'|(c0 & d' & E' & Hc0)]; fold d in E'.
  - rewrite E' in Hd. symmetry in Hd.
    apply app_eq_nil in Hd as [Hd _]. apply app_eq_nil in Hd as [_ Hd].
    discriminate.
  - rewrite E' in Hd. destruct (rev rest ++ [c]) as [|c1 t] eqn:Et.
    + apply app_eq_nil in Et as [_ Et]. discriminate.
    + simpl in Hd. injection Hd as <- _. exact Hc0.
Qed.

(** X18. The tokens [runCommand] works with contain no white space, and when
    the line is not blank none of them is empty: the command and each
    argument is a word. *)
Theorem tokens_are_words (line : jsstring) :
  Forall solid (Js.splitWhiteSpace (Js.trim line)) /\
  (~ blank line -> Forall isToken (Js.splitWhiteSpace (Js.trim line))).
Proof.
  assert (Hsolid : Forall solid (Js.splitWhiteSpace (Js.trim line)))
    by apply splitWhiteSpaceFrom_solid_segments.
  split; [exact Hsolid|]. intros Hline.
  destruct (trim_shape line) as [E|(Hne & Hhd & Hlast)].
  - exfalso. apply Hline, trim_empty_iff, E.
  - destruct (splitWhiteSpaceFrom_nonempty (Js.trim line) Hne Hlast)
      as (_ & _ & H). specialize (H Hhd).
    unfold Js.splitWhiteSpace in *.
    revert Hsolid H. generalize (Js.splitWhiteSpaceFrom false (Js.trim line)).
    induction l as [|t l IH]; intros Hs Hn; [constructor|].
    inversion Hs; inversion Hn; subst.
    constructor; [split; assumption | auto].
Qed.

Lemma tokens_are_words_witness :
  Forall isToken (Js.splitWhiteSpace (Js.trim `"  cd   my  docs  ")).
Proof.
  apply (tokens_are_words `"  cd   my  docs  ").
  intros H. discriminate H.
Defined.

(** ** The tree view *)

(** X19. In the tree view that [renderFileSystem] builds for the path of any
    session, exactly one item carries the class [active], and it is the
    directory the session is in: the root item at home, otherwise the
    item reached from the root by the names of the path. *)
Theorem tree_view_marks_current_directory (prompt : jsstring)
    (cmds : list Interaction) :
  let s := runSession (initialState prompt) cmds in
  activePaths [] (treeView (currentPath s)) = [currentPath s].
Proof.
  cbv zeta.
  assert (H : reachesDirectory
                (currentPath (runSession (initialState prompt) cmds)))
    by (apply runSession_reachesDirectory, reachesDirectory_home).
  destruct (reachesDirectory_seeded _ H) as [E|[E|[E|[E|[]]]]];
    rewrite <- E; reflexivity.
Qed.

(** ** Start-up *)



(** X21. Whatever [main] starts from, a session that it made ready stays in
    the seeded tree: after any commands the path satisfies the invariant
    and is one of the four directories; and when the page shows the
    prompt of the home directory, the prompt keeps showing the current
    path. *)
Theorem session_from_main_stays_in_tree (b : Boot) (s : State)
    (cmds : list Interaction) :
  main b = Ready s ->
  pathInvariant (currentPath (runSession s cmds)) /\
  In (currentPath (runSession s cmds)) directories /\
  (pagePrompt b = `"user@gemini:~$" ->
   promptText (runSession s cmds)
   = promptFor (currentPath (runSession s cmds))).
Proof.
  intros Hmain.
  assert (Hs : currentPath s = [`"~"] /\ promptText s = pagePrompt b).
  { unfold main in Hmain.
    destruct (keyMissing (apiKey b)); [discriminate|].
    destruct (negb (elementsFound b)); [discriminate|].
    destruct (initializeChat _ _ _) as [[c|] out]; [|discriminate].
    injection Hmain as <-. split; reflexivity. }
  destruct Hs as [Hpath Hprompt].
  assert (Hdir : reachesDirectory (currentPath (runSession s cmds))).
  { apply runSession_reachesDirectory. rewrite Hpath.
    apply reachesDirectory_home. }
  split; [apply reachesDirectory_invariant, Hdir|].
  split; [apply reachesDirectory_seeded, Hdir|].
  intros Hpage.
  assert (Hinit : promptText s = promptFor (currentPath s))
    by (rewrite Hprompt, Hpage, Hpath; reflexivity).
  clear Hdir Hmain Hpath Hprompt. revert s Hinit.
  induction cmds as [|i cmds IH]; intros s Hs; [exact Hs|].
  simpl. apply IH.
  destruct (step_cases s i)
    as [[_ H]|[_ [H|[[arg H]|[(arg & _ & H)|[H|[l H]]]]]]];
    rewrite H; try exact Hs.
  cbv zeta. destruct (createThrows (engine i)); reflexivity.
Qed.

Lemma session_from_main_stays_in_tree_witness :
  In (currentPath
        (runSession
           (mkState [`"~"] (mkChat 0 `"~") [] `"user@gemini:~$"
              [initializing; initialized] `"" false)
           [mkInteraction `"cd images" healthy;
            mkInteraction `"cd constructor" healthy]))
     directories.
Proof.
  apply (session_from_main_stays_in_tree
           (mkBoot (Some `"key") true false `"user@gemini:~$" `"")).
  reflexivity.
Defined.

(** ** The goal panel *)

(** X22. [getGoalExplanation] does nothing for a blank goal.  Otherwise the
    goal input and the button are disabled while the request is in
    flight and enabled again however it ends, the text of the goal is
    kept, and when the engine fails or the answer cannot be rendered the
    panel shows the apology. *)
Theorem goal_controls_are_released
    (render : option jsstring -> Completion jsstring)
    (outcome : SendOutcome) (g : GoalPanel) :
  let g' := getGoalExplanation render outcome g in
  goalValue g' = goalValue g /\
  (blank (goalValue g) -> requestGuide g = None /\ g' = g) /\
  (~ blank (goalValue g) ->
   (exists inFlight,
      requestGuide g = Some inFlight /\
      goalInputDisabled inFlight = true /\
      goalSubmitDisabled inFlight = true) /\
   goalInputDisabled g' = false /\ goalSubmitDisabled g' = false /\
   ((forall text markup,
       outcome = Resolved text -> render text <> Normal markup) ->
    goalOutput g' = goalFailure)).
Proof.
  cbv zeta. unfold getGoalExplanation, requestGuide.
  destruct (Js.eqb (Js.trim (goalValue g)) `"") eqn:E.
  - apply eqb_eq in E. apply trim_empty_iff in E.
    split; [reflexivity|]. split; [auto|]. intros H. contradiction.
  - apply eqb_neq in E.
    split; [reflexivity|]. split.
    + intros H. apply trim_empty_iff in H. contradiction.
    + intros _. split; [eexists; repeat split|].
      split; [reflexivity|]. split; [reflexivity|].
      intros Hfail. unfold settleGuide. cbn [goalOutput].
      destruct outcome as [text|e]; [|reflexivity].
      destruct (render text) as [markup|x] eqn:R; [|reflexivity].
      exfalso. exact (Hfail text markup eq_refl R).
Qed.

Lemma goal_controls_are_released_witness :
  goalOutput
    (getGoalExplanation (fun _ => Throw TypeError) (Resolved None)
       (mkGoalPanel `"list files" false false `""))
  = goalFailure.
Proof.
  destruct (goal_controls_are_released (fun _ => Throw TypeError)
              (Resolved None) (mkGoalPanel `"list files" false false `""))
    as (_ & _ & H).
  destruct H as (_ & _ & _ & Hout); [discriminate|].
  apply Hout. intros text markup _. discriminate.
Defined.

(** ** Ascending with [..], from the argument to the committed path *)

Lemma startsWith_home_app (a b : jsstring) :
  b <> [] -> Js.startsWith b `"~" = false ->
  Js.startsWith (a ++ b) `"~" = Js.startsWith a `"~".
Proof.
  intros Hb Hb'. destruct a as [|c a].
  - simpl app. rewrite Hb'. reflexivity.
  - rewrite <- app_comm_cons, !startsWith_home. reflexivity.
Qed.

(** A [..] at the end of an argument is one more turn of the loop on what
    the rest of the argument accumulates to. *)
Lemma resolvePath_then_dotdot (cp : list jsstring) (a : jsstring) :
  resolvePath cp (a ++ `"/..") = accumulate (resolvePath cp a) `"..".
Proof.
  unfold resolvePath.
  rewrite (startsWith_home_app a `"/..") by (discriminate || reflexivity).
  change (a ++ `"/..") with (a ++ Js.slash :: `"..").
  rewrite split_app_sep.
  change (Js.split Js.slash `"..") with [`".."].
  destruct (Js.startsWith a `"~"); [|rewrite app_assoc];
    rewrite fold_left_app; reflexivity.
Qed.

(** [n] turns of the loop on [..] drop the last [n] segments after the
    first one, as far as there are any. *)
Lemma fold_accumulate_dotdots (n : nat) : forall first l,
  fold_left accumulate (repeat `".." n) (first :: l)
  = first :: firstn (length l - n) l.
Proof.
  induction n as [|n IH]; intros first l.
  - simpl. rewrite Nat.sub_0_r, firstn_all. reflexivity.
  - simpl repeat. simpl fold_left.
    replace (accumulate (first :: l) `"..")
      with (if 1 <? length (first :: l) then removelast (first :: l)
            else first :: l) by reflexivity.
    destruct l as [|x l].
    + simpl. rewrite IH. simpl. try rewrite firstn_nil. reflexivity.
    + replace (1 <? length (first :: x :: l)) with true by reflexivity.
      change (removelast (first :: x :: l))
        with (first :: removelast (x :: l)).
      rewrite IH, removelast_firstn_len, firstn_firstn.
      rewrite length_firstn. simpl length. f_equal.
      rewrite Nat.min_l by lia.
      replace (Nat.min (Nat.pred (S (length l))) (S (length l)) - n)
        with (S (length l) - S n) by (simpl; lia).
      reflexivity.
Qed.

Lemma join_dotdots_relative (n : nat) :
  Js.startsWith (Js.join `"/" (repeat `".." (S n))) `"~" = false.
Proof.
  simpl repeat. destruct (repeat `".." n); reflexivity.
Qed.

(** C5. Processing [..] drops the last accumulated segment when there is
    more than one, and leaves the accumulation alone when only the home
    sentinel is left, and this is what [handleCd] does with every [..] of
    its argument: a [..] at the end of an argument drops the last segment
    of what the rest accumulates to, unless one segment is left; [n]
    segments [..] from a path that starts at the home sentinel drop its
    last [n] segments and stop at the sentinel; and the accumulated path
    is the one [handleCd] commits whenever it is a directory.  So
    resolving a relative argument from a path that starts at the home
    sentinel yields a path that starts there, the path of a session
    always starts at the home sentinel, [cd ../images] from
    [['~'; 'documents']] leaves [['~'; 'images']], and [cd ../../..] from
    [['~'; 'images']] succeeds and leaves [['~']]. *)
Theorem dotdot_stops_at_home :
  (forall acc seg, acc <> [] -> accumulate (acc ++ [seg]) `".." = acc) /\
  accumulate [`"~"] `".." = [`"~"] /\
  (forall rest arg,
     Js.startsWith arg `"~" = false ->
     exists rest', resolvePath (`"~" :: rest) arg = `"~" :: rest') /\
  (forall prompt cmds,
     exists rest,
       currentPath (runSession (initialState prompt) cmds) = `"~" :: rest) /\
  (forall ai s,
     currentPath s = [`"~"; `"images"] ->
     resolvePath (currentPath s) `"../../.." = [`"~"] /\
     fst (handleCd ai `"../../.." s) = Normal tt /\
     currentPath (snd (handleCd ai `"../../.." s)) = [`"~"]) /\
  (forall cp a,
     resolvePath cp (a ++ `"/..")
     = if 1 <? length (resolvePath cp a)
       then removelast (resolvePath cp a)
       else resolvePath cp a) /\
  (forall rest n,
     Forall properSegment rest -> 0 < n ->
     resolvePath (`"~" :: rest) (Js.join `"/" (repeat `".." n))
     = `"~" :: firstn (length rest - n) rest) /\
  (forall ai s arg,
     Js.eqb arg `"" || Js.eqb arg `"~" = false ->
     reachesDirectory (resolvePath (currentPath s) arg) ->
     fst (handleCd ai arg s) = Normal tt /\
     currentPath (snd (handleCd ai arg s))
     = resolvePath (currentPath s) arg) /\
  resolvePath [`"~"] `"documents/report.docx/.." = [`"~"; `"documents"] /\
  (forall ai s,
     currentPath s = [`"~"; `"documents"] ->
     fst (handleCd ai `"../images" s) = Normal tt /\
     currentPath (snd (handleCd ai `"../images" s)) = [`"~"; `"images"]).
Proof.
  assert (Hcommit : forall ai s arg,
             Js.eqb arg `"" || Js.eqb arg `"~" = false ->
             reachesDirectory (resolvePath (currentPath s) arg) ->
             fst (handleCd ai arg s) = Normal tt /\
             currentPath (snd (handleCd ai arg s))
             = resolvePath (currentPath s) arg).
  { intros ai s arg Harg Hdir.
    rewrite (handleCd_navigates ai arg s (resolvePath (currentPath s) arg))
      by (right; auto).
    destruct (createThrows ai); split; reflexivity. }
  repeat match goal with |- _ /\ _ => split end.
  - intros acc seg Hacc. unfold accumulate.
    replace (Js.eqb `".." `"..") with true by reflexivity.
    rewrite length_app. simpl length.
    destruct acc as [|x acc]; [congruence|].
    replace (1 <? length (x :: acc) + 1) with true
      by (symmetry; apply Nat.ltb_lt; simpl; lia).
    apply removelast_last.
  - reflexivity.
  - intros rest arg Harg. unfold resolvePath. rewrite Harg.
    rewrite <- app_comm_cons. simpl fold_left.
    change (accumulate [] `"~") with [`"~"].
    apply accumulate_keeps_first.
  - intros prompt cmds.
    destruct (reachesDirectory_invariant
                (currentPath (runSession (initialState prompt) cmds)))
      as [H _]; [|exact H].
    apply runSession_reachesDirectory, reachesDirectory_home.
  - intros ai s Hs.
    assert (Hr : resolvePath (currentPath s) `"../../.." = [`"~"])
      by (rewrite Hs; reflexivity).
    split; [exact Hr|].
    destruct (Hcommit ai s `"../../.." eq_refl) as [H1 H2];
      [rewrite Hr; apply reachesDirectory_home|].
    split; [exact H1 | rewrite H2; exact Hr].
  - intros cp a. rewrite resolvePath_then_dotdot. reflexivity.
  - intros rest n Hrest Hn. destruct n as [|n]; [lia|].
    unfold resolvePath. rewrite join_dotdots_relative.
    change (`"/") with [Js.slash].
    rewrite split_join.
    + rewrite fold_left_app.
      rewrite (fold_accumulate_proper (`"~" :: rest) []).
      * apply fold_accumulate_dotdots.
      * constructor; [repeat split; discriminate | exact Hrest].
    + discriminate.
    + apply Forall_forall. intros seg Hseg.
      apply repeat_spec in Hseg. subst seg.
      vm_compute. intuition discriminate.
  - exact Hcommit.
  - reflexivity.
  - intros ai s Hs.
    assert (Hr : resolvePath (currentPath s) `"../images"
                 = [`"~"; `"images"]) by (rewrite Hs; reflexivity).
    destruct (Hcommit ai s `"../images" eq_refl) as [H1 H2];
      [rewrite Hr; eexists; reflexivity|].
    split; [exact H1 | rewrite H2; exact Hr].
Qed.

Lemma dotdot_stops_at_home_witness :
  accumulate ([`"~"] ++ [`"images"]) `".." = [`"~"] /\
  (exists rest', resolvePath [`"~"; `"images"] `"../../.." = `"~" :: rest') /\
  currentPath
    (snd (handleCd healthy `"../../.."
            (mkState [`"~"; `"images"] (mkChat 1 `"~/images") [`"~/images"]
               `"user@gemini:~/images$" [] `"" false))) = [`"~"] /\
  resolvePath [`"~"; `"a"; `"b"; `"c"] `"../.." = [`"~"; `"a"] /\
  currentPath
    (snd (handleCd healthy `"documents/../music"
            (initialState `"user@gemini:~$"))) = [`"~"; `"music"] /\
  currentPath
    (snd (handleCd healthy `"../images"
            (mkState [`"~"; `"documents"] (mkChat 1 `"~/documents")
               [`"~/documents"] `"user@gemini:~/documents$" [] `"" false)))
  = [`"~"; `"images"].
Proof.
  destruct dotdot_stops_at_home
    as (Hpop & _ & Hrel & _ & Hcd & _ & Hdots & Hcommit & _ & Hup).
  split; [apply Hpop; discriminate|].
  split; [apply Hrel; reflexivity|].
  split; [apply Hcd; reflexivity|].
  split; [apply (Hdots [`"a"; `"b"; `"c"] 2);
          [repeat constructor; discriminate | lia]|].
  split; [|apply Hup; reflexivity].
  apply (Hcommit healthy (initialState `"user@gemini:~$")
           `"documents/../music"); [reflexivity|].
  eexists; reflexivity.
Defined.
